(** * twisted.protocols.basic: framing receivers

  A shallow embedding of [src/twisted/protocols/basic.py]: the netstring,
  line and int32-prefixed receivers and the stateful dispatch mixin,
  followed by the properties the specification states about them; and
  of the subscription and the user directory of
  [src/twisted/web/distrib.py].

  Python byte strings are lists of bytes, Python integers are [Z]; every
  receiver object is a record of its attributes, a method is a function
  from the object to the updated object, and the callbacks a receiver
  makes ([stringReceived], [lineReceived], [rawDataReceived]) are
  recorded in the order they happen. *)

From Stdlib Require Import ZArith Lia.
From Stdlib.Strings Require Import Byte.
From stdpp Require Import gmap strings list.
From Equations Require Import Equations.

Local Open Scope Z_scope.

(** ** The Python primitives the module relies on *)

Module Py.

Abbreviation bytes := (list byte).

#[global] Instance byte_eq_dec : EqDecision byte.
Proof.
  intros x y. destruct (Byte.eqb x y) eqn:E.
  - left. by apply Byte.byte_dec_bl.
  - right. by apply Byte.eqb_false.
Defined.

(** A byte string literal. *)
Definition b (s : string) : bytes := String.list_byte_of_string s.

(** [ord(c)] *)
Definition ord (c : byte) : Z := Z.of_N (Byte.to_N c).

(** [chr(n)] for [0 <= n < 256] *)
Definition chr (n : Z) : byte :=
  match Byte.of_N (Z.to_N n) with Some c => c | None => x00 end.

(** [len(s)] *)
Definition len (s : bytes) : Z := Z.of_nat (length s).

(** A slice bound [i] of a sequence of length [n]: a negative bound
    counts from the end, and every bound is clipped to [0..n]. *)
Definition bound (n i : Z) : Z :=
  if i <? 0 then Z.max (i + n) 0 else Z.min i n.

(** [s[i:j]] *)
Definition slice (s : bytes) (i j : Z) : bytes :=
  let lo := bound (len s) i in
  let hi := bound (len s) j in
  take (Z.to_nat (hi - lo)) (drop (Z.to_nat lo) s).

(** [s[:j]] *)
Definition slice_to (s : bytes) (j : Z) : bytes := slice s 0 j.

(** [s[i:]] *)
Definition slice_from (s : bytes) (i : Z) : bytes :=
  drop (Z.to_nat (bound (len s) i)) s.

(** The character class [\d] of [re] on a byte string. *)
Definition is_digit (c : byte) : bool := (48 <=? ord c) && (ord c <=? 57).

(** [int(s)] for a string [s] of decimal digits ([int('')] does not
    arise: the callers test the string first). *)
Definition int (s : bytes) : Z :=
  fold_left (fun acc c => acc * 10 + (ord c - 48)) s 0.

(** ['%d' % n] for [0 <= n]: the digits of [n], most significant first.
    [fuel] bounds the number of digits. *)
Fixpoint digits (fuel : nat) (n : Z) (acc : bytes) : bytes :=
  match fuel with
  | O => acc
  | S fuel =>
      let acc := chr (48 + n mod 10) :: acc in
      if n <? 10 then acc else digits fuel (n / 10) acc
  end.

Definition format_d (n : Z) : bytes := digits (S (Z.to_nat n)) n [].

(** Four bytes, most significant first, and the number [0 <= u < 2^32]
    they stand for. *)
Definition be32 (u : Z) : bytes :=
  [chr (u / 2 ^ 24); chr (u / 2 ^ 16 mod 256);
   chr (u / 2 ^ 8 mod 256); chr (u mod 256)].

Definition of_be32 (s : bytes) : option Z :=
  match s with
  | [b3; b2; b1; b0] =>
      Some (ord b3 * 2 ^ 24 + ord b2 * 2 ^ 16 + ord b1 * 2 ^ 8 + ord b0)
  | _ => None
  end.

(** [struct.unpack("!i", s)]: the four bytes read as a two's complement
    32-bit integer; [None] stands for [struct.error] (the string is not
    four bytes long). *)
Definition unpack_i (s : bytes) : option Z :=
  match of_be32 s with
  | Some u => Some (if 2 ^ 31 <=? u then u - 2 ^ 32 else u)
  | None => None
  end.

(** [struct.pack("!i", n)]; [None] stands for [struct.error] (the
    number does not fit 32 signed bits). *)
Definition pack_i (n : Z) : option bytes :=
  if (- 2 ^ 31 <=? n) && (n <? 2 ^ 31) then Some (be32 (n mod 2 ^ 32))
  else None.

(** [string.split(s, sep, 1)] as the receiver uses it, unpacked into two
    names: [Some (head, tail)] when [sep] occurs in [s], cut at its first
    occurrence; [None] stands for the [ValueError] of the unpacking when
    [sep] does not occur, and of [split] itself when [sep] is empty. *)
Fixpoint starts_with (sep s : bytes) : bool :=
  match sep, s with
  | [], _ => true
  | c :: sep, d :: s => Byte.eqb c d && starts_with sep s
  | _ :: _, [] => false
  end.

Fixpoint find_sep (sep s : bytes) : option (bytes * bytes) :=
  if starts_with sep s then Some ([], drop (length sep) s)
  else match s with
       | [] => None
       | c :: s =>
           match find_sep sep s with
           | Some (h, t) => Some (c :: h, t)
           | None => None
           end
       end.

Definition split1 (s sep : bytes) : option (bytes * bytes) :=
  match sep with
  | [] => None
  | _ => find_sep sep s
  end.

End Py.

Import Py.

(** ** The netstring decoder of the specification

    The three-state machine of the specification's section 4.1, fed one
    byte at a time; [NetstringReceiver] is compared with it below. The
    specification's [digits_seen] flag is left out: no rule of the
    section reads it. *)

Module NetstringSpec.

Inductive DecoderState :=
| ReadingLength (partial_length : Z)
| ReadingPayload (remaining : Z) (collected : bytes)
| ReadingTerminator.

Inductive DecodeError := MalformedLengthPrefix | MissingTerminator.

Definition initial : DecoderState := ReadingLength 0.

Definition terminator (c : byte) : list bytes * (DecoderState + DecodeError) :=
  if Byte.eqb c ","%byte then ([], inl (ReadingLength 0))
  else ([], inr MissingTerminator).

(** One byte of input: the frames delivered and the next state, or the
    error. A payload of declared length 0 is delivered when the next byte
    arrives, which is then the terminator. *)
Definition step (st : DecoderState) (c : byte)
  : list bytes * (DecoderState + DecodeError) :=
  match st with
  | ReadingLength n =>
      if is_digit c then ([], inl (ReadingLength (n * 10 + (ord c - 48))))
      else if Byte.eqb c ":"%byte then ([], inl (ReadingPayload n []))
      else ([], inr MalformedLengthPrefix)
  | ReadingPayload r col =>
      if r =? 0 then
        let '(fs, next) := terminator c in (col :: fs, next)
      else if r - 1 =? 0 then ([col ++ [c]], inl ReadingTerminator)
      else ([], inl (ReadingPayload (r - 1) (col ++ [c])))
  | ReadingTerminator => terminator c
  end.

Fixpoint feed (st : DecoderState) (data : bytes)
  : list bytes * (DecoderState + DecodeError) :=
  match data with
  | [] => ([], inl st)
  | c :: data =>
      match step st c with
      | (fs, inl st) => let '(fs', r) := feed st data in (fs ++ fs', r)
      | (fs, inr e) => (fs, inr e)
      end
  end.

(** Feeding chunk after chunk, up to the first error. *)
Fixpoint feed_chunks (st : DecoderState) (chunks : list bytes)
  : list bytes * (DecoderState + DecodeError) :=
  match chunks with
  | [] => ([], inl st)
  | d :: chunks =>
      match feed st d with
      | (fs, inl st) => let '(fs', r) := feed_chunks st chunks in (fs ++ fs', r)
      | (fs, inr e) => (fs, inr e)
      end
  end.

End NetstringSpec.

(** ** NetstringReceiver *)

Module Netstring.

(** [LENGTH, DATA, COMMA = range(3)] *)
Inductive Mode := LENGTH | DATA | COMMA.

(** [NUMBER]: the compiled pattern, a first group of as many decimal
    digits as there are (possibly none) and a second group of one
    optional colon. [NUMBER.match(s)] always matches; the result gives
    [group(1)], [group(2)] and what follows the match, so that [end()]
    is the length of the two groups. *)
Fixpoint span_digits (s : bytes) : bytes * bytes :=
  match s with
  | c :: s' =>
      if is_digit c
      then let '(ds, rest) := span_digits s' in (c :: ds, rest)
      else ([], s)
  | [] => ([], [])
  end.

Record Match := { group1 : bytes; group2 : bytes; after : bytes }.

Definition m_end (m : Match) : Z := len (group1 m) + len (group2 m).

Definition NUMBER_match (s : bytes) : Match :=
  let '(ds, rest) := span_digits s in
  match rest with
  | c :: rest' =>
      if Byte.eqb c ":"%byte
      then {| group1 := ds; group2 := [c]; after := rest' |}
      else {| group1 := ds; group2 := []; after := rest |}
  | [] => {| group1 := ds; group2 := []; after := [] |}
  end.

(** The object: [mode] and [length] are the class attributes, [__buffer]
    is the payload collected so far and [__data] the unread part of the
    chunk being processed (both unset on a new object, and both assigned
    before they are first read). *)
Record NetstringReceiver := {
  mode : Mode;
  length : Z;
  __buffer : bytes;
  __data : bytes
}.

Definition new : NetstringReceiver :=
  {| mode := LENGTH; length := 0; __buffer := []; __data := [] |}.

(** The two [raise NetstringParseError(self.__data)] statements; [site]
    tells them apart (the specification calls the one in [doLength]
    MalformedLengthPrefix and the one in [doComma] MissingTerminator). *)
Inductive Site := in_doLength | in_doComma.

Inductive Exception :=
| NetstringParseError (site : Site) (args : bytes)
| IndexError.

(** How a method call ends. *)
Inductive Completion :=
| Returns
| Raises (e : Exception).

(** [doData]: returns the object and the [stringReceived] calls made. *)
Definition doData (self : NetstringReceiver)
  : NetstringReceiver * list bytes :=
  let buffer := slice_to (__data self) (length self) in
  let data := slice_from (__data self) (length self) in
  let length' := length self - len buffer in
  let buffer' := __buffer self ++ buffer in
  if negb (length' =? 0) then
    ({| mode := mode self; length := length';
        __buffer := buffer'; __data := data |}, [])
  else
    ({| mode := COMMA; length := length';
        __buffer := buffer'; __data := data |}, [buffer']).

Definition doComma (self : NetstringReceiver)
  : NetstringReceiver * Completion :=
  let self := {| mode := LENGTH; length := length self;
                 __buffer := __buffer self; __data := __data self |} in
  match __data self with
  | [] => (self, Raises IndexError)
  | c :: rest =>
      if negb (Byte.eqb c ","%byte) then
        (self, Raises (NetstringParseError in_doComma (__data self)))
      else
        ({| mode := mode self; length := length self;
            __buffer := __buffer self; __data := rest |}, Returns)
  end.

Definition doLength (self : NetstringReceiver)
  : NetstringReceiver * Completion :=
  let m := NUMBER_match (__data self) in
  if m_end m =? 0 then
    (self, Raises (NetstringParseError in_doLength (__data self)))
  else
    let length' :=
      match group1 m with
      | [] => length self
      | _ => length self * 10 ^ len (group1 m) + int (group1 m)
      end in
    match group2 m with
    | [] => ({| mode := mode self; length := length';
                __buffer := __buffer self; __data := after m |}, Returns)
    | _ => ({| mode := DATA; length := length';
               __buffer := []; __data := after m |}, Returns)
    end.

(** The [while self.__data:] loop of [dataReceived]. [None]: the loop is
    still running when [fuel] iterations are done. *)
Fixpoint loop (fuel : nat) (self : NetstringReceiver)
  : option (NetstringReceiver * list bytes * Completion) :=
  match __data self with
  | [] => Some (self, [], Returns)
  | _ :: _ =>
      match fuel with
      | O => None
      | S fuel =>
          match mode self with
          | DATA =>
              let '(self, fs) := doData self in
              match loop fuel self with
              | Some (self, fs', c) => Some (self, fs ++ fs', c)
              | None => None
              end
          | COMMA =>
              match doComma self with
              | (self, Returns) => loop fuel self
              | (self, Raises e) => Some (self, [], Raises e)
              end
          | LENGTH =>
              match doLength self with
              | (self, Returns) => loop fuel self
              | (self, Raises e) => Some (self, [], Raises e)
              end
          end
      end
  end.

(** [dataReceived]: two iterations per byte of the chunk are enough
    (see [loop_total]). *)
Definition dataReceived (self : NetstringReceiver) (data : bytes)
  : option (NetstringReceiver * list bytes * Completion) :=
  loop (2 * Datatypes.length data + 1)
    {| mode := mode self; length := length self;
       __buffer := __buffer self; __data := data |}.

(** [sendString]: what is written to the transport. *)
Definition sendString (data : bytes) : bytes :=
  format_d (len data) ++ b ":" ++ data ++ b ",".

(** Chunk after chunk; a chunk is fed only when the call before it
    returned. *)
Fixpoint receive_all (self : NetstringReceiver) (chunks : list bytes)
  : option (NetstringReceiver * list bytes * Completion) :=
  match chunks with
  | [] => Some (self, [], Returns)
  | d :: chunks =>
      match dataReceived self d with
      | Some (self, fs, Returns) =>
          match receive_all self chunks with
          | Some (self, fs', c) => Some (self, fs ++ fs', c)
          | None => None
          end
      | r => r
      end
  end.

(** What the specification's decoder state keeps of the object. *)
Definition abs (self : NetstringReceiver) : NetstringSpec.DecoderState :=
  match mode self with
  | LENGTH => NetstringSpec.ReadingLength (length self)
  | DATA => NetstringSpec.ReadingPayload (length self) (__buffer self)
  | COMMA => NetstringSpec.ReadingTerminator
  end.

(** The specification's name for each [raise]. *)
Definition kind (site : Site) : NetstringSpec.DecodeError :=
  match site with
  | in_doLength => NetstringSpec.MalformedLengthPrefix
  | in_doComma => NetstringSpec.MissingTerminator
  end.

(** What holds of the object between two iterations of the loop. *)
Definition Inv (self : NetstringReceiver) : Prop :=
  0 <= length self /\ (mode self = COMMA -> length self = 0).

(** A run of the code against a run of the specification's decoder: the
    same frames, and the same state or the same error. *)
Inductive refines
  : NetstringReceiver * list bytes * Completion ->
    list bytes * (NetstringSpec.DecoderState + NetstringSpec.DecodeError) ->
    Prop :=
| refines_returns self fs :
    Inv self -> refines (self, fs, Returns) (fs, inl (abs self))
| refines_raises self fs site args :
    refines (self, fs, Raises (NetstringParseError site args))
            (fs, inr (kind site)).

(** Two runs that deliver the same frames and end the same way: both
    return, in the same mode with the same pending length, or both raise
    [NetstringParseError] from the same method (its argument, the unread
    rest of the chunk at hand, depends on where the chunk ends). *)
Definition same_outcome
  (r1 r2 : NetstringReceiver * list bytes * Completion) : Prop :=
  let '(self1, fs1, c1) := r1 in
  let '(self2, fs2, c2) := r2 in
  fs1 = fs2
  /\ match c1, c2 with
     | Returns, Returns =>
         mode self1 = mode self2 /\ length self1 = length self2
     | Raises (NetstringParseError site1 _),
       Raises (NetstringParseError site2 _) => site1 = site2
     | _, _ => False
     end.

(** A call, or a sequence of calls, that ends, and ends in a return or
    in a [NetstringParseError]: not in another exception, and not
    never. *)
Definition ends
  (r : option (NetstringReceiver * list bytes * Completion)) : Prop :=
  match r with
  | Some (_, _, Returns) => True
  | Some (_, _, Raises (NetstringParseError _ _)) => True
  | Some (_, _, Raises IndexError) => False
  | None => False
  end.

(** The iterations [loop] needs on an object. *)
Definition measure (self : NetstringReceiver) : nat :=
  2 * Datatypes.length (__data self)
  + match mode self with DATA => 1 | _ => 0 end.

End Netstring.

(** ** LineReceiver *)

Module Line.

(** The callbacks a subclass overrides. [A] is whatever the subclass
    keeps; [lineReceived] also tells whether it called
    [self.setRawMode()] before it returned. *)
Class Consumer (A : Type) := {
  lineReceived : A -> bytes -> A * bool;
  rawDataReceived : A -> bytes -> A
}.

(** The object: [line_mode] is [1] or [0] in the source. *)
Record LineReceiver := {
  line_mode : bool;
  buffer : bytes;
  delimiter : bytes
}.

(** The class attributes: line mode, nothing buffered, CR LF. *)
Definition new : LineReceiver :=
  {| line_mode := true; buffer := []; delimiter := [x0d; x0a] |}.

(** [setRawMode] *)
Definition setRawMode (self : LineReceiver) : LineReceiver :=
  {| line_mode := false; buffer := buffer self; delimiter := delimiter self |}.

(** The [while self.line_mode: ... else: ...] statement of
    [dataReceived]: [break] (no delimiter in the buffer) leaves the loop
    without running the [else] suite; the [else] suite runs when the
    condition is found false, on entry or after a callback left line
    mode. Each iteration shortens the buffer by at least the delimiter. *)
Equations? drain {A} `{Consumer A} (self : LineReceiver) (app : A)
  : LineReceiver * A by wf (length (buffer self)) lt :=
drain self app with line_mode self := {
  | false =>
      let data := buffer self in
      let self' := {| line_mode := false; buffer := [];
                      delimiter := delimiter self |} in
      match data with
      | [] => (self', app)
      | _ :: _ => (self', rawDataReceived app data)
      end
  | true with Logic.inspect (split1 (buffer self) (delimiter self)) := {
      | exist _ None _ => (self, app)
      | exist _ (Some (line, rest)) Hsplit
          with lineReceived app line := {
          | (app', raw) =>
              drain {| line_mode := negb raw; buffer := rest;
                       delimiter := delimiter self |} app' } } }.
Proof.
  clear drain. simpl.
  assert (shorter : forall (sep s h t : bytes),
             sep <> [] -> find_sep sep s = Some (h, t) ->
             (length t < length s)%nat).
  { intros sep s. induction s as [|d s IH]; intros h t Hsep Hf; simpl in Hf.
    - destruct sep; [done|]. simpl in Hf. discriminate.
    - destruct (starts_with sep (d :: s)).
      + inversion Hf; subst. destruct sep; [done|].
        simpl. rewrite length_drop. lia.
      + destruct (find_sep sep s) as [[h' t']|] eqn:E; [|discriminate].
        inversion Hf; subst. specialize (IH _ _ Hsep eq_refl). simpl. lia. }
  unfold split1 in Hsplit.
  destruct (delimiter self) as [|c sep] eqn:Hd; [discriminate|].
  eapply shorter; [|exact Hsplit]. discriminate.
Qed.

(** [dataReceived] *)
Definition dataReceived {A} `{Consumer A} (self : LineReceiver)
  (data : bytes) (app : A) : LineReceiver * A :=
  drain {| line_mode := line_mode self; buffer := buffer self ++ data;
           delimiter := delimiter self |} app.

(** [setLineMode] *)
Definition setLineMode {A} `{Consumer A} (self : LineReceiver)
  (extra : bytes) (app : A) : LineReceiver * A :=
  dataReceived {| line_mode := true; buffer := buffer self;
                  delimiter := delimiter self |} extra app.

(** [sendLine]: what is written to the transport. *)
Definition sendLine (self : LineReceiver) (line : bytes) : bytes :=
  line ++ delimiter self.

(** Chunk after chunk. *)
Fixpoint receive_all {A} `{Consumer A} (self : LineReceiver)
  (chunks : list bytes) (app : A) : LineReceiver * A :=
  match chunks with
  | [] => (self, app)
  | d :: chunks =>
      let '(self, app) := dataReceived self d app in
      receive_all self chunks app
  end.

(** The calls made on a subclass, in order. *)
Inductive Call :=
| line_received (line : bytes)
| raw_data_received (data : bytes).

(** A subclass that writes down every call and leaves line mode after
    the lines [to_raw] accepts. *)
Definition recorder (to_raw : bytes -> bool) : Consumer (list Call) :=
  {| lineReceived := fun log line => (log ++ [line_received line], to_raw line);
     rawDataReceived := fun log data => log ++ [raw_data_received data] |}.

(** The object with more input in its buffer. *)
Definition more (self : LineReceiver) (data : bytes) : LineReceiver :=
  {| line_mode := line_mode self; buffer := buffer self ++ data;
     delimiter := delimiter self |}.

(** An object on which the loop has nothing to do. *)
Definition idle {A} `{Consumer A} (self : LineReceiver) : Prop :=
  forall app : A, drain self app = (self, app).

(** The lines of a log, and the raw data of a log put end to end. *)
Definition lines (log : list Call) : list bytes :=
  flat_map (fun c => match c with line_received l => [l] | _ => [] end) log.

Definition raw_bytes (log : list Call) : bytes :=
  flat_map (fun c => match c with raw_data_received d => d | _ => [] end) log.

(** Two runs that end with the same object, after the same
    [lineReceived] calls and the same raw bytes (which reach
    [rawDataReceived] cut as the chunks are). *)
Definition agree (r1 r2 : LineReceiver * list Call) : Prop :=
  r1.1 = r2.1 /\ lines r1.2 = lines r2.2 /\ raw_bytes r1.2 = raw_bytes r2.2.

(** Lines with the delimiter after each, end to end. *)
Definition joined (sep : bytes) (ls : list bytes) : bytes :=
  concat (map (fun l => l ++ sep) ls).

(** [sep] occurs in [s]. *)
Definition occurs (sep s : bytes) : Prop := exists h t, s = h ++ sep ++ t.

(** No proper non-empty prefix of [sep] is also a suffix of it. *)
Definition unbordered (sep : bytes) : Prop :=
  forall x y z, sep = x ++ y -> sep = z ++ x -> x = [] \/ x = sep.

End Line.

(** ** Int32StringReceiver *)

Module Int32.

Record Int32StringReceiver := { recvd : bytes }.

Definition new : Int32StringReceiver := {| recvd := [] |}.

Inductive Completion :=
| Returns
| Raises_struct_error.

(** What one test of the [while] condition and one run of the loop body
    do to [self.recvd]. *)
Inductive Iteration :=
| Exit                                (* the condition fails, or [break] *)
| Deliver (packet recvd' : bytes)     (* [stringReceived(packet)] *)
| Error.                              (* [struct.unpack] raises *)

Definition iteration (recvd : bytes) : Iteration :=
  if len recvd >? 3 then
    match unpack_i (slice_to recvd 4) with
    | None => Error
    | Some length =>
        if len recvd <? length + 4 then Exit
        else Deliver (slice recvd 4 (length + 4))
                     (slice_from recvd (length + 4))
    end
  else Exit.

(** The [while len(self.recvd) > 3:] loop. [None]: the loop is still
    running when [fuel] iterations are done. *)
Fixpoint loop (fuel : nat) (recvd : bytes)
  : option (bytes * list bytes * Completion) :=
  match fuel with
  | O => None
  | S fuel =>
      match iteration recvd with
      | Exit => Some (recvd, [], Returns)
      | Error => Some (recvd, [], Raises_struct_error)
      | Deliver packet recvd' =>
          match loop fuel recvd' with
          | Some (r, packets, c) => Some (r, packet :: packets, c)
          | None => None
          end
      end
  end.

(** [dataReceived]. An iteration that delivers either shortens
    [self.recvd] or leaves it as it is, and in the second case the loop
    never ends; so the loop ends within [len(self.recvd) + 1] iterations
    or not at all (see [loop_fuel]), and [None] says it does not end. *)
Definition dataReceived (self : Int32StringReceiver) (recd : bytes)
  : option (Int32StringReceiver * list bytes * Completion) :=
  let recvd := recvd self ++ recd in
  match loop (S (length recvd)) recvd with
  | Some (r, packets, c) => Some ({| recvd := r |}, packets, c)
  | None => None
  end.

(** [sendString]: what is written to the transport; [None] when
    [struct.pack] raises. *)
Definition sendString (data : bytes) : option bytes :=
  match pack_i (len data) with
  | Some header => Some (header ++ data)
  | None => None
  end.

(** Chunk after chunk; a chunk is fed only when the call before it
    returned. *)
Fixpoint receive_all (self : Int32StringReceiver) (chunks : list bytes)
  : option (Int32StringReceiver * list bytes * Completion) :=
  match chunks with
  | [] => Some (self, [], Returns)
  | d :: chunks =>
      match dataReceived self d with
      | Some (self, packets, Returns) =>
          match receive_all self chunks with
          | Some (self, packets', c) => Some (self, packets ++ packets', c)
          | None => None
          end
      | r => r
      end
  end.

(** The loop as a relation, without the count of iterations:
    [runs recvd rest packets c] when the loop, entered with [recvd],
    ends with [rest], having delivered [packets]. *)
Inductive runs : bytes -> bytes -> list bytes -> Completion -> Prop :=
| runs_exit recvd :
    iteration recvd = Exit -> runs recvd recvd [] Returns
| runs_error recvd :
    iteration recvd = Error -> runs recvd recvd [] Raises_struct_error
| runs_deliver recvd packet recvd' rest packets c :
    iteration recvd = Deliver packet recvd' ->
    runs recvd' rest packets c ->
    runs recvd rest (packet :: packets) c.

(** Every length the loop reads from [recvd], frame after frame, is
    non-negative. *)
Inductive nonneg_headers : bytes -> Prop :=
| nonneg_exit recvd :
    iteration recvd = Exit -> nonneg_headers recvd
| nonneg_deliver recvd length packet recvd' :
    unpack_i (slice_to recvd 4) = Some length -> 0 <= length ->
    iteration recvd = Deliver packet recvd' ->
    nonneg_headers recvd' ->
    nonneg_headers recvd.

(** Chunk-boundary invariance as the specification states it: the
    chunks fed one by one, and their concatenation fed at once, deliver
    the same frames and end the same way. *)
Definition delivered
  (r : option (Int32StringReceiver * list bytes * Completion))
  : option (list bytes * Completion) :=
  match r with
  | Some (_, packets, c) => Some (packets, c)
  | None => None
  end.

Definition chunk_invariant (chunks : list bytes) : Prop :=
  delivered (receive_all new chunks)
  = delivered (dataReceived new (concat chunks)).

(** The round trip as the specification states it: [sendString] writes
    something for the payload, and a new receiver fed that delivers the
    payload and keeps nothing. *)
Definition round_trips (payload : bytes) : Prop :=
  exists wire,
    sendString payload = Some wire
    /\ dataReceived new wire = Some (new, [payload], Returns).

(** The specification's section 4.3, for a header that declares [N] and
    the payload bytes [payload] received so far: the receiver waits
    while fewer than [N] bytes follow the header, and delivers them when
    [N] bytes do. *)
Definition waits_then_delivers (N : Z) (payload : bytes) : Prop :=
  (len payload < N ->
   dataReceived new (be32 N ++ payload)
   = Some ({| recvd := be32 N ++ payload |}, [], Returns))
  /\ (len payload = N ->
      dataReceived new (be32 N ++ payload) = Some (new, [payload], Returns)).

(** The same for a buffer [recvd] of at least four bytes, with the
    declared length as [read] finds it in the first four: fewer than
    [4 + declared] bytes are left alone; otherwise the header and
    [declared] payload bytes are consumed and the payload delivered. *)
Definition buffers_until_complete
  (read : bytes -> option Z) (recvd : bytes) : Prop :=
  forall declared,
    read (slice_to recvd 4) = Some declared ->
    (len recvd < 4 + declared -> iteration recvd = Exit)
    /\ (4 + declared <= len recvd ->
        exists packet,
          iteration recvd
          = Deliver packet (drop (Z.to_nat (4 + declared)) recvd)
          /\ len packet = declared
          /\ recvd = take 4 recvd ++ packet
                     ++ drop (Z.to_nat (4 + declared)) recvd).

End Int32.

(** ** StatefulStringProtocol *)

Module Stateful.

(** The object: [state]; the [proto_*] attributes by name, each a
    function from the string received to the next state; and, to observe
    what [stringReceived] does, the handler calls made, the lines
    printed and whether [self.transport.loseConnection()] was called. *)
Record StatefulStringProtocol := {
  state : string;
  attributes : gmap string (bytes -> string);
  calls : list (string * bytes);
  printed : list string;
  connection_lost : bool
}.

(** A new object of a subclass with the given [proto_*] methods. *)
Definition new (attributes : gmap string (bytes -> string))
  : StatefulStringProtocol :=
  {| state := "init"; attributes := attributes; calls := [];
     printed := []; connection_lost := false |}.

Definition stringReceived (self : StatefulStringProtocol) (string : bytes)
  : StatefulStringProtocol :=
  let pto := ("proto_" ++ state self)%string in
  match attributes self !! pto with
  | None =>
      {| state := state self; attributes := attributes self;
         calls := calls self;
         printed := printed self
                    ++ [("callback " ++ state self ++ " not found")%string];
         connection_lost := connection_lost self |}
  | Some statehandler =>
      let state' := statehandler string in
      {| state := state'; attributes := attributes self;
         calls := calls self ++ [(pto, string)];
         printed := printed self;
         connection_lost :=
           if String.eqb state' "done" then true else connection_lost self |}
  end.

(** The mixin under a string receiver: every frame the receiver delivers
    is a [stringReceived] call, in order. *)
Definition deliver (self : StatefulStringProtocol) (frames : list bytes)
  : StatefulStringProtocol :=
  fold_left stringReceived frames self.

End Stateful.

(** ** StatefulStringProtocol, with handlers that return any object

    [Stateful] above takes every handler to return a state name. Python
    does not ask for that: a handler may return anything (a handler
    with no [return] gives [None]), and [stringReceived] stores it in
    [self.state] as it is. The next call then evaluates
    ['proto_'+self.state], which raises [TypeError] when the state is
    not a string; the [try] catches [AttributeError] only. *)

Module StatefulAny.

(** What a handler returns: a string, or an object that cannot be added
    to a string ([None], a number, ...). *)
Inductive Object :=
| Str (s : string)
| Other.

Record StatefulStringProtocol := {
  state : Object;
  attributes : gmap string (bytes -> Object);
  calls : list (string * bytes);
  printed : list string;
  connection_lost : bool
}.

Definition new (attributes : gmap string (bytes -> Object))
  : StatefulStringProtocol :=
  {| state := Str "init"; attributes := attributes; calls := [];
     printed := []; connection_lost := false |}.

(** How a call ends. *)
Inductive Completion :=
| Returns
| Raises_TypeError.

Definition stringReceived (self : StatefulStringProtocol) (string : bytes)
  : StatefulStringProtocol * Completion :=
  match state self with
  | Other => (self, Raises_TypeError)
  | Str st =>
      let pto := ("proto_" ++ st)%string in
      match attributes self !! pto with
      | None =>
          ({| state := state self; attributes := attributes self;
              calls := calls self;
              printed := printed self
                         ++ [("callback " ++ st ++ " not found")%string];
              connection_lost := connection_lost self |}, Returns)
      | Some statehandler =>
          let state' := statehandler string in
          ({| state := state'; attributes := attributes self;
              calls := calls self ++ [(pto, string)];
              printed := printed self;
              connection_lost :=
                match state' with
                | Str st' =>
                    if String.eqb st' "done" then true
                    else connection_lost self
                | Other => connection_lost self
                end |}, Returns)
      end
  end.

(** The frames a receiver delivers, one [stringReceived] call after the
    other; the exception of a call goes up through the receiver's loop,
    so the frames behind it are not passed on. *)
Fixpoint deliver (self : StatefulStringProtocol) (frames : list bytes)
  : StatefulStringProtocol * Completion :=
  match frames with
  | [] => (self, Returns)
  | string :: frames =>
      match stringReceived self string with
      | (self, Returns) => deliver self frames
      | r => r
      end
  end.

(** An object of [Stateful], whose handlers all return strings. *)
Definition of_strings (self : Stateful.StatefulStringProtocol)
  : StatefulStringProtocol :=
  {| state := Str (Stateful.state self);
     attributes := (fun h string => Str (h string))
                   <$> Stateful.attributes self;
     calls := Stateful.calls self;
     printed := Stateful.printed self;
     connection_lost := Stateful.connection_lost self |}.

End StatefulAny.

(** ** twisted.web.distrib: ResourceSubscription and UserDirectory

    [src/twisted/web/distrib.py]. The requests, the publisher, the pb
    broker and the transport are objects of other modules: a request
    and a publisher are names here, and what the methods do to them is
    written down as events, in the order it happens. *)

Module Distrib.

Definition Request := nat.
Definition Publisher := nat.

Inductive Event :=
| print (line : string)
  (* [pb.Broker()], [requestPerspective(service, username, password,
     self.connected, self.notConnected)], [notifyOnDisconnect(self.booted)]
     and [tcp.Client(host, port, broker)] *)
| connect (host port service username password : bytes)
  (* [publisher.request(request, pbcallback=..., pberrback=...)] with
     the two methods of [Issue(request)] *)
| publisher_request (publisher : Publisher) (request : Request)
| request_write (request : Request) (data : bytes)
| request_finish (request : Request).

(** The object: [waiting] is [0] or [1] in the source, [publisher] is
    [None] or a publisher (which is true as a condition). *)
Record ResourceSubscription := {
  host : bytes;
  port : bytes;
  service : bytes;
  username : bytes;
  password : bytes;
  waiting : bool;
  pending : list Request;
  publisher : option Publisher
}.

(** [__init__]; [waiting] is the class attribute. *)
Definition __init__ (host port service username password : bytes)
  : ResourceSubscription :=
  {| host := host; port := port; service := service;
     username := username; password := password;
     waiting := false; pending := []; publisher := None |}.

(** [render]; it returns [NOT_DONE_YET] on both paths. *)
Definition render (self : ResourceSubscription) (request : Request)
  : ResourceSubscription * list Event :=
  match publisher self with
  | None =>
      let pending' := pending self ++ [request] in
      if waiting self then
        ({| host := host self; port := port self; service := service self;
            username := username self; password := password self;
            waiting := true; pending := pending'; publisher := None |},
         [])
      else
        ({| host := host self; port := port self; service := service self;
            username := username self; password := password self;
            waiting := true; pending := pending'; publisher := None |},
         [connect (host self) (port self) (service self)
            (username self) (password self)])
  | Some p => (self, [publisher_request p request])
  end.

(** [for request in requests: self.render(request)] *)
Fixpoint render_each (self : ResourceSubscription) (requests : list Request)
  : ResourceSubscription * list Event :=
  match requests with
  | [] => (self, [])
  | request :: requests =>
      let '(self, events) := render self request in
      let '(self, events') := render_each self requests in
      (self, events ++ events')
  end.

(** [connected]. The [for] statement walks the list [self.pending]
    itself while [render] runs; [render] appends to that list only when
    [self.publisher] is false, which it is not here, so the list walked
    is the list at entry. *)
Definition connected (self : ResourceSubscription) (publisher : Publisher)
  : ResourceSubscription * list Event :=
  let self :=
    {| host := host self; port := port self; service := service self;
       username := username self; password := password self;
       waiting := false; pending := pending self;
       publisher := Some publisher |} in
  let '(self, events) := render_each self (pending self) in
  (self, print "connected to publisher" :: events).

(** [notConnected] *)
Definition notConnected (self : ResourceSubscription)
  : ResourceSubscription * list Event :=
  (self,
   print "could not connect to distributed web service."
   :: flat_map
        (fun request =>
           [request_write request
              (b "Unable to connect to distributed server.");
            request_finish request])
        (pending self)).

(** [booted] *)
Definition booted (self : ResourceSubscription)
  : ResourceSubscription * list Event :=
  ({| host := host self; port := port self; service := service self;
      username := username self; password := password self;
      waiting := false; pending := pending self; publisher := None |},
   [print "lost pb connection"]).

(** The calls the web server ([render]) and the broker (the three
    callbacks handed to it) make on the object, and a sequence of them. *)
Inductive Call :=
| Render (request : Request)
| Connected (publisher : Publisher)
| NotConnected
| Booted.

Definition call (self : ResourceSubscription) (c : Call)
  : ResourceSubscription * list Event :=
  match c with
  | Render request => render self request
  | Connected publisher => connected self publisher
  | NotConnected => notConnected self
  | Booted => booted self
  end.

Fixpoint run (self : ResourceSubscription) (calls : list Call)
  : ResourceSubscription * list Event :=
  match calls with
  | [] => (self, [])
  | c :: calls =>
      let '(self, events) := call self c in
      let '(self, events') := run self calls in
      (self, events ++ events')
  end.

(** [posixpath.join(a, p)] *)
Definition join (a p : bytes) : bytes :=
  if bool_decide (slice_to p 1 = b "/") then p
  else if bool_decide (a = []) || bool_decide (slice_from a (- 1) = b "/")
       then a ++ p
       else a ++ b "/" ++ p.

(** What [getChild] returns: an [error.ErrorPage], a
    [ResourceSubscription] or a [static.File]. *)
Inductive Resource :=
| ErrorPage (status : Z) (brief : string) (detail : bytes)
| Subscription (rs : ResourceSubscription)
| File (path : bytes).

(** [http.NOT_FOUND] *)
Definition NOT_FOUND : Z := 404.

(** The object: the [children] of [resource.Resource], which
    [putChild] binds by name; the binding made last comes first. *)
Record UserDirectory := { children : list (bytes * Resource) }.

Definition userDirName : bytes := b "public_html".
Definition userSocketName : bytes := b ".twistd-web-pb".

Definition putChild (self : UserDirectory) (path : bytes) (child : Resource)
  : UserDirectory :=
  {| children := (path, child) :: children self |}.

Section System.

(** [pwd.getpwnam(name)], of which [getChild] uses [pw_dir] only;
    [None] stands for [KeyError]. And [repr] on a string. *)
Variable getpwnam : bytes -> option bytes.
Variable repr : bytes -> bytes.

(** [getChild]; the request is not used. *)
Definition getChild (self : UserDirectory) (chnam : bytes)
  : Resource * UserDirectory :=
  if bool_decide (chnam = []) then
    (ErrorPage NOT_FOUND "Bad URL"
       (b "The empty string is not a valid user."), self)
  else
    let td := b ".twistd" in
    let '(username, sub) :=
      if bool_decide (slice_from chnam (- len td) = td)
      then (slice_to chnam (- len td), true)
      else (chnam, false) in
    match getpwnam username with
    | None =>
        (ErrorPage NOT_FOUND "No Such User"
           (b "The user " ++ repr username
            ++ b " was not found on this system."), self)
    | Some pw_dir =>
        if sub then
          let twistdsock := join pw_dir userSocketName in
          let rs := __init__ (b "unix") twistdsock
                      (b "web") (b "web") (b "web") in
          (Subscription rs, putChild self chnam (Subscription rs))
        else (File (join pw_dir userDirName), self)
    end.

End System.

End Distrib.

(** * Properties *)

(** ** Facts about the primitives *)

Section PyFacts.

Lemma len_nonneg (s : bytes) : 0 <= len s.
Proof. unfold len. lia. Qed.

Lemma len_nil : len [] = 0.
Proof. reflexivity. Qed.

Lemma len_cons (c : byte) (s : bytes) : len (c :: s) = len s + 1.
Proof. unfold len. simpl. lia. Qed.

Lemma len_app (s t : bytes) : len (s ++ t) = len s + len t.
Proof. unfold len. rewrite length_app. lia. Qed.

Lemma len_zero (s : bytes) : len s = 0 -> s = [].
Proof.
  destruct s; [done|]. rewrite len_cons. pose proof (len_nonneg s). lia.
Qed.

Lemma bound_nonneg (n i : Z) : 0 <= i -> bound n i = Z.min i n.
Proof. intros Hi. unfold bound. destruct (i <? 0) eqn:E; [lia|done]. Qed.

Lemma take_min (s : bytes) (j : Z) :
  take (Z.to_nat (Z.min j (len s))) s = take (Z.to_nat j) s.
Proof.
  unfold len. destruct (Z.le_ge_cases j (Z.of_nat (length s))).
  - f_equal. lia.
  - rewrite !take_ge; [done|lia|lia].
Qed.

Lemma drop_min (s : bytes) (i : Z) :
  drop (Z.to_nat (Z.min i (len s))) s = drop (Z.to_nat i) s.
Proof.
  unfold len. destruct (Z.le_ge_cases i (Z.of_nat (length s))).
  - f_equal. lia.
  - rewrite !drop_ge; [done|lia|lia].
Qed.

Lemma slice_to_nonneg (s : bytes) (j : Z) :
  0 <= j -> slice_to s j = take (Z.to_nat j) s.
Proof.
  intros Hj. unfold slice_to, slice.
  rewrite !bound_nonneg by lia.
  rewrite (Z.min_l 0) by apply len_nonneg.
  rewrite Z.sub_0_r. simpl. rewrite drop_0. apply take_min.
Qed.

Lemma slice_from_nonneg (s : bytes) (i : Z) :
  0 <= i -> slice_from s i = drop (Z.to_nat i) s.
Proof.
  intros Hi. unfold slice_from. rewrite bound_nonneg by lia. apply drop_min.
Qed.

Lemma slice_nonneg (s : bytes) (i j : Z) :
  0 <= i <= j ->
  slice s i j = take (Z.to_nat (j - i)) (drop (Z.to_nat i) s).
Proof.
  intros Hij. unfold slice. rewrite !bound_nonneg by lia.
  rewrite drop_min. unfold len.
  destruct (Z.le_ge_cases i (Z.of_nat (length s))) as [Hi|Hi].
  - destruct (Z.le_ge_cases j (Z.of_nat (length s))) as [Hj|Hj].
    + f_equal. lia.
    + rewrite !take_ge; [done|..]; rewrite length_drop; lia.
  - rewrite !drop_ge by lia. by rewrite !take_nil.
Qed.

Lemma ord_bounded (c : byte) : 0 <= ord c < 256.
Proof. unfold ord. pose proof (Byte.to_N_bounded c). lia. Qed.

Lemma ord_chr (n : Z) : 0 <= n < 256 -> ord (chr n) = n.
Proof.
  intros Hn. unfold ord, chr.
  destruct (Byte.of_N (Z.to_N n)) as [c|] eqn:E.
  - apply Byte.to_of_N in E. lia.
  - apply Byte.of_N_None_iff in E. lia.
Qed.

Lemma chr_ord (c : byte) : chr (ord c) = c.
Proof. unfold ord, chr. by rewrite N2Z.id, Byte.of_to_N. Qed.

Lemma ord_inj (c d : byte) : ord c = ord d -> c = d.
Proof. intros E. by rewrite <- (chr_ord c), <- (chr_ord d), E. Qed.

Lemma eqb_byte_true (c d : byte) : Byte.eqb c d = true <-> c = d.
Proof. split; [apply Byte.byte_dec_bl | apply Byte.byte_dec_lb]. Qed.

Lemma eqb_byte_false (c d : byte) : Byte.eqb c d = false <-> c <> d.
Proof.
  split; [apply Byte.eqb_false|].
  intros Hne. destruct (Byte.eqb c d) eqn:E; [|done].
  by apply eqb_byte_true in E.
Qed.

Lemma is_digit_value (c : byte) : is_digit c = true -> 0 <= ord c - 48 <= 9.
Proof. unfold is_digit. intros H. apply andb_true_iff in H. lia. Qed.

Lemma colon_not_digit : is_digit ":"%byte = false.
Proof. reflexivity. Qed.

(** [int] folds from the left, so it can be cut anywhere. *)
Lemma int_fold (s : bytes) (acc : Z) :
  fold_left (fun acc c => acc * 10 + (ord c - 48)) s acc
  = acc * 10 ^ len s + int s.
Proof.
  unfold int. revert acc. induction s as [|c s IH]; intros acc.
  - simpl. rewrite len_nil. lia.
  - simpl. rewrite IH, (IH (0 * 10 + _)), len_cons.
    rewrite Z.pow_add_r by (pose proof (len_nonneg s); lia). lia.
Qed.

Lemma int_app (s t : bytes) : int (s ++ t) = int s * 10 ^ len t + int t.
Proof.
  unfold int at 1. rewrite fold_left_app. fold (int s). apply int_fold.
Qed.

Lemma int_cons_fold (c : byte) (s : bytes) (n : Z) :
  (n * 10 + (ord c - 48)) * 10 ^ len s + int s
  = n * 10 ^ len (c :: s) + int (c :: s).
Proof.
  change (c :: s) with ([c] ++ s). rewrite int_app, len_app.
  rewrite Z.pow_add_r by (pose proof (len_nonneg s); unfold len; simpl; lia).
  change (int [c]) with (0 * 10 + (ord c - 48)).
  change (10 ^ len [c]) with 10. ring.
Qed.

Lemma int_nonneg (s : bytes) : forallb is_digit s = true -> 0 <= int s.
Proof.
  induction s as [|c s IH] using rev_ind; [done|].
  rewrite forallb_app. simpl. intros H.
  apply andb_true_iff in H as [Hs Hc]. apply andb_true_iff in Hc as [Hc _].
  rewrite int_app. unfold int at 2. simpl. change (len [c]) with 1.
  apply is_digit_value in Hc. specialize (IH Hs). lia.
Qed.

(** ['%d' % n] is a non-empty string of digits that [int] reads back. *)
Lemma digits_spec (fuel : nat) (n : Z) (acc : bytes) :
  0 <= n < Z.of_nat fuel ->
  exists ds, digits fuel n acc = ds ++ acc /\ ds <> []
             /\ forallb is_digit ds = true /\ int ds = n.
Proof.
  revert n acc. induction fuel as [|fuel IH]; intros n acc Hn; [lia|].
  simpl. assert (Hm : 0 <= n mod 10 < 10) by (apply Z.mod_pos_bound; lia).
  assert (Hc : ord (chr (48 + n mod 10)) = 48 + n mod 10)
    by (apply ord_chr; lia).
  assert (Hd : is_digit (chr (48 + n mod 10)) = true).
  { unfold is_digit. rewrite Hc. apply andb_true_iff. lia. }
  destruct (n <? 10) eqn:E.
  - exists [chr (48 + n mod 10)]. repeat split; [done| |].
    + simpl. by rewrite Hd.
    + unfold int. simpl. rewrite Hc. rewrite Z.mod_small by lia. lia.
  - assert (Hq : 0 <= n / 10 < Z.of_nat fuel).
    { split; [apply Z.div_pos; lia|].
      apply Z.div_lt_upper_bound; lia. }
    destruct (IH (n / 10) (chr (48 + n mod 10) :: acc) Hq)
      as (ds & -> & Hne & Hds & Hint).
    exists (ds ++ [chr (48 + n mod 10)]). repeat split.
    + by rewrite <- app_assoc.
    + destruct ds; done.
    + rewrite forallb_app. simpl. by rewrite Hds, Hd.
    + rewrite int_app, Hint. unfold int. simpl. rewrite Hc.
      change (len [_]) with 1. pose proof (Z.div_mod n 10). lia.
Qed.

Lemma format_d_spec (n : Z) :
  0 <= n ->
  format_d n <> [] /\ forallb is_digit (format_d n) = true
  /\ int (format_d n) = n.
Proof.
  intros Hn. unfold format_d.
  destruct (digits_spec (S (Z.to_nat n)) n []) as (ds & -> & ? & ? & ?); [lia|].
  by rewrite app_nil_r.
Qed.

End PyFacts.

(** ** NetstringReceiver against the specification's decoder *)

Module NetstringFacts.
Import Netstring NetstringSpec.

#[local] Arguments is_digit : simpl never.
#[local] Arguments Z.pow : simpl never.
#[local] Arguments Z.mul : simpl never.
#[local] Arguments Z.add : simpl never.
#[local] Arguments Z.sub : simpl never.

Lemma span_digits_spec (s ds rest : bytes) :
  span_digits s = (ds, rest) ->
  s = ds ++ rest /\ forallb is_digit ds = true
  /\ match rest with c :: _ => is_digit c = false | [] => True end.
Proof.
  revert ds rest. induction s as [|c s IH]; intros ds rest H; simpl in H.
  - by inversion H.
  - destruct (is_digit c) eqn:Hc.
    + destruct (span_digits s) as [ds' rest'].
      inversion H; subst. destruct (IH _ _ eq_refl) as (-> & Hds & Hrest).
      simpl. by rewrite Hc.
    + inversion H; subst. simpl. by rewrite Hc.
Qed.

Lemma span_digits_app (ds rest : bytes) :
  forallb is_digit ds = true ->
  match rest with c :: _ => is_digit c = false | [] => True end ->
  span_digits (ds ++ rest) = (ds, rest).
Proof.
  intros Hds Hrest. induction ds as [|c ds IH].
  - destruct rest as [|c rest]; [done|].
    cbn [app span_digits]. by rewrite Hrest.
  - cbn [forallb] in Hds. apply andb_true_iff in Hds as [Hc Hds].
    cbn [app span_digits]. by rewrite Hc, IH.
Qed.

(** *** Runs of the specification's decoder over a block of input *)

Lemma feed_digits (ds rest : bytes) (n : Z) :
  forallb is_digit ds = true ->
  feed (ReadingLength n) (ds ++ rest)
  = feed (ReadingLength (n * 10 ^ len ds + int ds)) rest.
Proof.
  revert n. induction ds as [|c ds IH]; intros n Hds.
  - simpl. rewrite len_nil. change (int []) with 0. do 2 f_equal. lia.
  - simpl in Hds. apply andb_true_iff in Hds as [Hc Hds].
    simpl. rewrite Hc, IH by done. rewrite int_cons_fold.
    by destruct (feed _ rest).
Qed.

Lemma feed_payload_partial (blk col : bytes) (r : Z) :
  len blk < r ->
  feed (ReadingPayload r col) blk
  = ([], inl (ReadingPayload (r - len blk) (col ++ blk))).
Proof.
  revert r col. induction blk as [|c blk IH]; intros r col Hr.
  - simpl. rewrite len_nil, Z.sub_0_r, app_nil_r. done.
  - rewrite len_cons in Hr. pose proof (len_nonneg blk).
    simpl. destruct (r =? 0) eqn:E0; [lia|].
    destruct (r - 1 =? 0) eqn:E1; [lia|].
    rewrite IH by lia. rewrite len_cons, <- app_assoc. simpl.
    do 3 f_equal. lia.
Qed.

Lemma feed_payload_complete (blk rest col : bytes) (r : Z) :
  0 < r -> len blk = r ->
  feed (ReadingPayload r col) (blk ++ rest)
  = let '(fs, x) := feed ReadingTerminator rest in ((col ++ blk) :: fs, x).
Proof.
  revert r col. induction blk as [|c blk IH]; intros r col Hr Hlen.
  - rewrite len_nil in Hlen. lia.
  - rewrite len_cons in Hlen. pose proof (len_nonneg blk).
    simpl. destruct (r =? 0) eqn:E0; [lia|].
    destruct (r - 1 =? 0) eqn:E1.
    + assert (blk = []) as -> by (apply len_zero; lia). simpl.
      by destruct (feed ReadingTerminator rest).
    + rewrite IH by lia. rewrite <- app_assoc. simpl.
      by destruct (feed ReadingTerminator rest).
Qed.

Lemma feed_payload_zero (c : byte) (rest col : bytes) :
  feed (ReadingPayload 0 col) (c :: rest)
  = let '(fs, x) := feed ReadingTerminator (c :: rest) in (col :: fs, x).
Proof.
  simpl. unfold terminator. destruct (Byte.eqb c ","%byte); [|done].
  simpl. by destruct (feed (ReadingLength 0) rest).
Qed.

(** The specification's decoder does not see chunk boundaries. *)
Lemma feed_app (st : DecoderState) (s t : bytes) :
  feed st (s ++ t)
  = match feed st s with
    | (fs, inl st') => let '(fs', x) := feed st' t in (fs ++ fs', x)
    | (fs, inr e) => (fs, inr e)
    end.
Proof.
  revert st. induction s as [|c s IH]; intros st; simpl.
  - by destruct (feed st t).
  - destruct (step st c) as [fs [st'|e]]; [|done].
    rewrite IH. destruct (feed st' s) as [fs1 [st1|e1]]; [|done].
    destruct (feed st1 t) as [fs2 x]. by rewrite app_assoc.
Qed.

Lemma feed_chunks_concat (st : DecoderState) (chunks : list bytes) :
  feed_chunks st chunks = feed st (concat chunks).
Proof.
  revert st. induction chunks as [|d chunks IH]; intros st; simpl; [done|].
  rewrite feed_app. destruct (feed st d) as [fs [st'|e]]; [|done].
  by rewrite IH.
Qed.

(** *** One iteration of the loop against the decoder *)

Lemma doLength_returns (self self' : NetstringReceiver) :
  mode self = LENGTH -> 0 <= length self ->
  doLength self = (self', Returns) ->
  feed (abs self) (__data self) = feed (abs self') (__data self')
  /\ Inv self' /\ (measure self' < measure self)%nat.
Proof.
  destruct self as [m L buf data]. simpl. intros -> HL.
  unfold doLength, NUMBER_match, abs, measure, m_end. simpl.
  destruct (span_digits data) as [ds rest] eqn:Hspan.
  apply span_digits_spec in Hspan as (-> & Hds & Hrest).
  assert (HL' : match ds with
                | [] => L
                | _ :: _ => L * 10 ^ len ds + int ds
                end = L * 10 ^ len ds + int ds).
  { destruct ds; [|done]. rewrite len_nil. change (int []) with 0. lia. }
  assert (Hpos : 0 <= L * 10 ^ len ds + int ds).
  { pose proof (int_nonneg ds Hds). pose proof (len_nonneg ds).
    assert (0 <= 10 ^ len ds) by (apply Z.pow_nonneg; lia). nia. }
  pose proof (len_nonneg ds) as Hlen.
  destruct rest as [|c rest].
  - simpl. rewrite len_nil.
    destruct (len ds + 0 =? 0) eqn:E; [done|].
    intros H; inversion H; subst; clear H. simpl. rewrite HL'.
    rewrite feed_digits by done. repeat split; simpl; try done.
    rewrite length_app. simpl. unfold len in E. lia.
  - destruct (Byte.eqb c ":"%byte) eqn:Hc; simpl.
    + apply eqb_byte_true in Hc as ->.
      change (len [":"%byte]) with 1.
      destruct (len ds + 1 =? 0) eqn:E; [lia|].
      intros H; inversion H; subst; clear H. simpl. rewrite HL'.
      rewrite feed_digits by done. simpl.
      repeat split; simpl; try done.
      * by destruct (feed _ rest).
      * rewrite length_app. simpl. lia.
    + rewrite len_nil.
      destruct (len ds + 0 =? 0) eqn:E; [done|].
      intros H; inversion H; subst; clear H. simpl. rewrite HL'.
      rewrite feed_digits by done. repeat split; simpl; try done.
      rewrite length_app. simpl. unfold len in E.
      destruct ds; simpl in *; lia.
Qed.

Lemma doLength_raises (self self' : NetstringReceiver) (e : Exception) :
  mode self = LENGTH -> __data self <> [] ->
  doLength self = (self', Raises e) ->
  e = NetstringParseError in_doLength (__data self)
  /\ feed (abs self) (__data self) = ([], inr MalformedLengthPrefix).
Proof.
  destruct self as [m L buf data]. simpl. intros -> Hdata.
  unfold doLength, NUMBER_match, abs, m_end. simpl.
  destruct (span_digits data) as [ds rest] eqn:Hspan.
  apply span_digits_spec in Hspan as (-> & Hds & Hrest).
  pose proof (len_nonneg ds) as Hlen.
  destruct rest as [|c rest].
  - simpl. rewrite len_nil. destruct (len ds + 0 =? 0) eqn:E; [|done].
    assert (ds = []) as -> by (apply len_zero; lia). done.
  - destruct (Byte.eqb c ":"%byte) eqn:Hc; simpl.
    + change (len [c]) with 1. destruct (len ds + 1 =? 0) eqn:E; [lia|done].
    + rewrite len_nil. destruct (len ds + 0 =? 0) eqn:E; [|done].
      assert (ds = []) as -> by (apply len_zero; lia).
      intros H; inversion H; subst. simpl. by rewrite Hrest, Hc.
Qed.

Lemma doComma_returns (self self' : NetstringReceiver) :
  Inv self -> mode self = COMMA ->
  doComma self = (self', Returns) ->
  feed (abs self) (__data self) = feed (abs self') (__data self')
  /\ Inv self' /\ (measure self' < measure self)%nat.
Proof.
  destruct self as [m L buf data]. intros [HL HC]. simpl in *. intros ->.
  specialize (HC eq_refl) as ->.
  unfold doComma, abs, measure. simpl.
  destruct data as [|c data]; [done|].
  simpl. unfold terminator.
  destruct (Byte.eqb c ","%byte); simpl; [|done].
  intros H; inversion H; subst; clear H. simpl.
  repeat split; simpl; try done; try lia.
  by destruct (feed _ data).
Qed.

Lemma doComma_raises (self self' : NetstringReceiver) (e : Exception) :
  mode self = COMMA -> __data self <> [] ->
  doComma self = (self', Raises e) ->
  e = NetstringParseError in_doComma (__data self)
  /\ feed (abs self) (__data self) = ([], inr MissingTerminator).
Proof.
  destruct self as [m L buf data]. simpl. intros -> Hdata.
  unfold doComma, abs. simpl.
  destruct data as [|c data]; [done|].
  simpl. unfold terminator.
  destruct (Byte.eqb c ","%byte); simpl; [done|].
  intros H; by inversion H.
Qed.

Lemma doData_spec (self self' : NetstringReceiver) (fs : list bytes) :
  Inv self -> mode self = DATA -> __data self <> [] ->
  doData self = (self', fs) ->
  feed (abs self) (__data self)
  = (let '(fs', x) := feed (abs self') (__data self') in (fs ++ fs', x))
  /\ Inv self' /\ (measure self' < measure self)%nat.
Proof.
  destruct self as [m L buf data]. intros [HL _]. simpl in *.
  intros -> Hdata. unfold doData, abs, measure. simpl.
  rewrite slice_to_nonneg, slice_from_nonneg by done.
  destruct (Z_lt_le_dec (len data) L) as [Hlt|Hle].
  - (* the whole chunk is payload, and more is to come *)
    rewrite take_ge, drop_ge by (unfold len in Hlt; lia).
    destruct (L - len data =? 0) eqn:E; [lia|]. simpl.
    intros H; inversion H; subst; clear H. simpl.
    rewrite feed_payload_partial by done.
    repeat split; simpl; try done; try lia.
    destruct data; simpl; [done|lia].
  - assert (Hblk : len (take (Z.to_nat L) data) = L).
    { unfold len in *. rewrite length_take. lia. }
    rewrite Hblk. replace (L - L =? 0) with true by (symmetry; lia). simpl.
    intros H; inversion H; subst; clear H. simpl.
    destruct (Z.eq_dec L 0) as [->|HL0].
    + simpl. rewrite drop_0, app_nil_r.
      destruct data as [|c data]; [done|].
      rewrite feed_payload_zero.
      repeat split; simpl; try done; lia.
    + rewrite <- (take_drop (Z.to_nat L) data) at 1.
      rewrite feed_payload_complete by (done || lia).
      repeat split; simpl; try done; try lia.
      rewrite length_drop. destruct data; simpl in *; [done|lia].
Qed.

Lemma refines_prefix fs0 self fs c fs' x :
  refines (self, fs, c) (fs', x) ->
  refines (self, fs0 ++ fs, c) (fs0 ++ fs', x).
Proof. intros H. inversion H; subst; by constructor. Qed.

Lemma loop_nil (fuel : nat) (self : NetstringReceiver) :
  __data self = [] -> loop fuel self = Some (self, [], Returns).
Proof. intros H. destruct fuel; simpl; by rewrite H. Qed.

(** Whatever the loop does, the decoder does on the same input. *)
Lemma loop_refines (fuel : nat) (self : NetstringReceiver) r :
  Inv self -> loop fuel self = Some r ->
  refines r (feed (abs self) (__data self)).
Proof.
  revert self r. induction fuel as [|fuel IH]; intros self r HI Hloop.
  - simpl in Hloop. destruct (__data self) eqn:Hd; [|done].
    inversion Hloop; subst. by constructor.
  - simpl in Hloop. destruct (__data self) as [|c d] eqn:Hd.
    { inversion Hloop; subst. by constructor. }
    assert (Hne : __data self <> []) by (by rewrite Hd).
    rewrite <- Hd. clear Hd c d.
    destruct (mode self) eqn:Hm.
    + destruct (doLength self) as [self' [|e]] eqn:Hstep.
      * destruct (doLength_returns _ _ Hm (proj1 HI) Hstep) as (-> & HI' & _).
        by apply IH.
      * destruct (doLength_raises _ _ _ Hm Hne Hstep) as (-> & ->).
        inversion Hloop; subst. apply (refines_raises _ _ in_doLength).
    + destruct (doData self) as [self' fs] eqn:Hstep.
      destruct (doData_spec _ _ _ HI Hm Hne Hstep) as (-> & HI' & _).
      destruct (loop fuel self') as [[[self'' fs'] c]|] eqn:Hrec; [|done].
      inversion Hloop; subst. specialize (IH _ _ HI' Hrec).
      destruct (feed (abs self') (__data self')) as [fs'' x].
      by apply refines_prefix.
    + destruct (doComma self) as [self' [|e]] eqn:Hstep.
      * destruct (doComma_returns _ _ HI Hm Hstep) as (-> & HI' & _).
        by apply IH.
      * destruct (doComma_raises _ _ _ Hm Hne Hstep) as (-> & ->).
        inversion Hloop; subst. apply (refines_raises _ _ in_doComma).
Qed.

(** The loop ends within [measure self] iterations. *)
Lemma loop_total (fuel : nat) (self : NetstringReceiver) :
  Inv self -> (measure self <= fuel)%nat -> is_Some (loop fuel self).
Proof.
  revert self. induction fuel as [|fuel IH]; intros self HI Hfuel.
  - unfold measure in Hfuel.
    destruct (__data self) eqn:Hd; simpl in Hfuel; [|lia].
    rewrite loop_nil by done. eauto.
  - simpl. destruct (__data self) as [|c d] eqn:Hd; [eauto|].
    assert (Hne : __data self <> []) by (by rewrite Hd).
    destruct (mode self) eqn:Hm.
    + destruct (doLength self) as [self' [|e]] eqn:Hstep; [|eauto].
      destruct (doLength_returns _ _ Hm (proj1 HI) Hstep) as (_ & HI' & Hlt).
      apply IH; [done|lia].
    + destruct (doData self) as [self' fs] eqn:Hstep.
      destruct (doData_spec _ _ _ HI Hm Hne Hstep) as (_ & HI' & Hlt).
      destruct (IH self' HI') as [[[? ?] ?] ->]; [lia|eauto].
    + destruct (doComma self) as [self' [|e]] eqn:Hstep; [|eauto].
      destruct (doComma_returns _ _ HI Hm Hstep) as (_ & HI' & Hlt).
      apply IH; [done|lia].
Qed.

End NetstringFacts.

(** ** NetstringReceiver: the claims *)

Section NetstringClaims.
Import Netstring NetstringSpec NetstringFacts.

#[local] Arguments is_digit : simpl never.
#[local] Arguments Z.pow : simpl never.
#[local] Arguments Z.mul : simpl never.
#[local] Arguments Z.add : simpl never.

(** [doLength] on a chunk of digits: all of it goes into [length]. *)
Lemma doLength_digits (m : Mode) (L : Z) (buf ds : bytes) :
  forallb is_digit ds = true -> ds <> [] ->
  doLength {| mode := m; length := L; __buffer := buf; __data := ds |}
  = ({| mode := m; length := L * 10 ^ len ds + int ds;
        __buffer := buf; __data := [] |}, Returns).
Proof.
  intros Hds Hne.
  assert (Hspan : span_digits ds = (ds, [])).
  { rewrite <- (app_nil_r ds) at 1. by apply span_digits_app. }
  unfold doLength, NUMBER_match, m_end. simpl.
  rewrite Hspan. simpl. rewrite len_nil.
  destruct (len ds + 0 =? 0) eqn:E.
  { destruct ds; [done|]. rewrite len_cons in E.
    pose proof (len_nonneg ds). lia. }
  by destruct ds.
Qed.

(** [doLength] on digits followed by a byte that is neither a digit nor
    the colon: the digits are consumed, the byte stays. *)
Lemma doLength_digits_then (m : Mode) (L : Z) (buf ds rest : bytes) (c : byte) :
  forallb is_digit ds = true -> ds <> [] ->
  is_digit c = false -> c <> ":"%byte ->
  doLength {| mode := m; length := L; __buffer := buf;
              __data := ds ++ c :: rest |}
  = ({| mode := m; length := L * 10 ^ len ds + int ds;
        __buffer := buf; __data := c :: rest |}, Returns).
Proof.
  intros Hds Hne Hc Hcolon. unfold doLength, NUMBER_match, m_end. simpl.
  rewrite span_digits_app by done.
  apply eqb_byte_false in Hcolon. rewrite Hcolon. simpl. rewrite len_nil.
  destruct (len ds + 0 =? 0) eqn:E.
  { destruct ds; [done|]. rewrite len_cons in E.
    pose proof (len_nonneg ds). lia. }
  by destruct ds.
Qed.

Lemma doLength_malformed (self : NetstringReceiver) (c : byte) (rest : bytes) :
  __data self = c :: rest -> is_digit c = false -> c <> ":"%byte ->
  doLength self
  = (self, Raises (NetstringParseError in_doLength (c :: rest))).
Proof.
  intros Hd Hc Hcolon. unfold doLength, NUMBER_match, m_end. rewrite Hd.
  cbn [span_digits]. rewrite Hc.
  apply eqb_byte_false in Hcolon. by rewrite Hcolon.
Qed.

(** A chunk of digits in LENGTH mode. *)
Lemma dataReceived_digits (self : NetstringReceiver) (ds : bytes) :
  mode self = LENGTH ->
  forallb is_digit ds = true ->
  dataReceived self ds
  = Some ({| mode := LENGTH;
             length := fold_left (fun n c => n * 10 + (ord c - 48)) ds
                                 (length self);
             __buffer := __buffer self; __data := [] |}, [], Returns).
Proof.
  intros Hm Hds.
  destruct self as [m L buf data]. simpl in Hm. subst m.
  unfold dataReceived. cbn [mode length __buffer].
  destruct ds as [|d ds]; [done|].
  replace (2 * Datatypes.length (d :: ds) + 1)%nat
    with (S (S (2 * Datatypes.length ds + 1))) by (simpl; lia).
  cbn [loop __data mode]. rewrite doLength_digits by done.
  rewrite int_fold. done.
Qed.



(** C10: no digit is required before the colon. Feeding ":," to a new
    receiver raises nothing, calls [stringReceived] once, with the empty
    string, and leaves the receiver as a new one is: LENGTH mode, length
    0. *)
Theorem netstring_empty_length_field :
  dataReceived new (b ":,")
  = Some ({| mode := LENGTH; length := 0; __buffer := []; __data := [] |},
          [[]], Returns).
Proof. by vm_compute. Qed.

(** C7: in LENGTH mode, a byte that is neither a decimal digit nor the
    colon makes [dataReceived] raise [NetstringParseError] from
    [doLength] (the specification's MalformedLengthPrefix), whether it
    comes first in the chunk or after some digits, and no frame is
    delivered; feeding "3xhi," to a new receiver does so. A chunk that
    ends in the middle of the digits raises nothing: the receiver stays
    in LENGTH mode. *)
Theorem netstring_malformed_length
  (self : NetstringReceiver) (ds rest : bytes) (c : byte) :
  mode self = LENGTH ->
  forallb is_digit ds = true ->
  is_digit c = false -> c <> ":"%byte ->
  (exists self',
      dataReceived self (ds ++ c :: rest)
      = Some (self', [],
              Raises (NetstringParseError in_doLength (c :: rest))))
  /\ (exists self',
         dataReceived new (b "3xhi,")
         = Some (self', [],
                 Raises (NetstringParseError in_doLength (b "xhi,"))))
  /\ (exists self',
         dataReceived self ds = Some (self', [], Returns)
         /\ mode self' = LENGTH).
Proof.
  intros Hm Hds Hc Hcolon. split; [|split].
  - destruct self as [m L buf data]. simpl in Hm. subst m.
    unfold dataReceived. cbn [mode length __buffer].
    destruct ds as [|d ds].
    + eexists. cbn [app].
      replace (2 * Datatypes.length (c :: rest) + 1)%nat
        with (S (2 * Datatypes.length rest + 2)) by (simpl; lia).
      cbn [loop __data mode]. by rewrite (doLength_malformed _ c rest).
    + eexists.
      replace (2 * Datatypes.length ((d :: ds) ++ c :: rest) + 1)%nat
        with (S (S (2 * Datatypes.length (ds ++ c :: rest) + 1)))
        by (simpl; lia).
      cbn [loop __data mode app].
      change (d :: ds ++ c :: rest) with ((d :: ds) ++ c :: rest).
      rewrite doLength_digits_then by done.
      cbn [loop __data mode]. by rewrite (doLength_malformed _ c rest).
  - eexists. by vm_compute.
  - rewrite dataReceived_digits by done. by eexists.
Qed.

Lemma netstring_malformed_length_witness :
  exists self',
    dataReceived new (b "12" ++ "x"%byte :: b "hi,")
    = Some (self', [],
            Raises (NetstringParseError in_doLength ("x"%byte :: b "hi,"))).
Proof.
  refine (proj1 (netstring_malformed_length new (b "12") (b "hi,") "x"%byte
                   eq_refl eq_refl eq_refl _)).
  discriminate.
Defined.

(** C8: once [doData] has delivered a frame the receiver is in COMMA
    mode with length 0, and the next byte must be the comma. [doComma]
    consumes a comma and goes back to LENGTH mode, the length still 0; a
    chunk that is just the comma leaves the receiver there. On any other
    byte [dataReceived] raises [NetstringParseError] from [doComma] (the
    specification's MissingTerminator). *)
Theorem netstring_terminator
  (self self' : NetstringReceiver) (fs : list bytes) (c : byte) (rest : bytes) :
  doData self = (self', fs) -> fs <> [] ->
  mode self' = COMMA /\ length self' = 0
  /\ doComma {| mode := mode self'; length := length self';
                __buffer := __buffer self'; __data := ","%byte :: rest |}
     = ({| mode := LENGTH; length := 0;
           __buffer := __buffer self'; __data := rest |}, Returns)
  /\ dataReceived self' [","%byte]
     = Some ({| mode := LENGTH; length := 0;
                __buffer := __buffer self'; __data := [] |}, [], Returns)
  /\ (c <> ","%byte ->
      dataReceived self' (c :: rest)
      = Some ({| mode := LENGTH; length := 0;
                 __buffer := __buffer self'; __data := c :: rest |}, [],
              Raises (NetstringParseError in_doComma (c :: rest)))).
Proof.
  unfold doData. intros Hstep Hfs.
  destruct (length self - len (slice_to (__data self) (length self)) =? 0)
    eqn:E; simpl in Hstep; inversion Hstep; subst; clear Hstep; [|done].
  apply Z.eqb_eq in E. rewrite E. cbn [mode length __buffer __data].
  repeat split.
  intros Hc. unfold dataReceived. cbn [mode length __buffer].
  replace (2 * Datatypes.length (c :: rest) + 1)%nat
    with (S (2 * Datatypes.length rest + 2)) by (simpl; lia).
  cbn [loop __data mode]. unfold doComma. cbn [mode length __buffer __data].
  apply eqb_byte_false in Hc. by rewrite Hc.
Qed.

Lemma netstring_terminator_witness :
  dataReceived
    {| mode := COMMA; length := 0; __buffer := b "abc"; __data := [] |}
    (b "x")
  = Some ({| mode := LENGTH; length := 0;
             __buffer := b "abc"; __data := b "x" |}, [],
          Raises (NetstringParseError in_doComma (b "x"))).
Proof.
  refine (proj2 (proj2 (proj2 (proj2
    (netstring_terminator
       {| mode := DATA; length := 3; __buffer := []; __data := b "abc" |}
       {| mode := COMMA; length := 0; __buffer := b "abc"; __data := [] |}
       [b "abc"] "x"%byte [] eq_refl _)))) _); discriminate.
Defined.

(** *** Chunk boundaries *)

Lemma dataReceived_refines (self : NetstringReceiver) (data : bytes) :
  Inv self ->
  exists r, dataReceived self data = Some r
            /\ refines r (feed (abs self) data).
Proof.
  intros HI. unfold dataReceived.
  set (self0 := {| mode := mode self; length := length self;
                   __buffer := __buffer self; __data := data |}).
  assert (HI0 : Inv self0) by done.
  destruct (loop_total (2 * Datatypes.length data + 1) self0 HI0) as [r Hr].
  { unfold measure, self0. simpl. destruct (mode self); lia. }
  exists r. split; [done|].
  by apply (loop_refines _ _ _ HI0) in Hr.
Qed.

Lemma receive_all_refines (chunks : list bytes) (self : NetstringReceiver) :
  Inv self ->
  exists r, receive_all self chunks = Some r
            /\ refines r (feed_chunks (abs self) chunks).
Proof.
  revert self. induction chunks as [|d chunks IH]; intros self HI.
  - eexists. split; [done|]. by constructor.
  - destruct (dataReceived_refines self d HI) as ([[self1 fs] c] & Hd & Href).
    cbn [receive_all feed_chunks]. rewrite Hd.
    inversion Href; subst.
    + destruct (IH self1) as ([[self2 fs'] c'] & -> & Href'); [done|].
      eexists. split; [done|].
      destruct (feed_chunks (abs self1) chunks) as [fs'' x].
      by apply refines_prefix.
    + eexists. split; [done|]. constructor.
Qed.

Lemma refines_same r1 r2 x : refines r1 x -> refines r2 x -> same_outcome r1 r2.
Proof.
  intros H1 H2. inversion H1; subst; inversion H2; subst; simpl.
  - split; [done|].
    match goal with H : abs _ = abs _ |- _ => rename H into Habs end.
    unfold abs in Habs.
    repeat match goal with H : Inv _ |- _ => destruct H as [? ?] end.
    destruct (mode self) eqn:E1, (mode self0) eqn:E2; inversion Habs; subst;
      split; try done.
    transitivity 0; [|symmetry]; auto.
  - split; [done|].
    match goal with H : kind _ = kind _ |- _ => rename H into Hk end.
    by destruct site, site0.
Qed.

(** The argument of the exception is the unread rest of the chunk at
    hand, so it is not the same for "3xhi," fed at once and fed as "3x",
    then "hi,". *)
Example netstring_error_argument :
  (exists self,
      dataReceived new (b "3xhi,")
      = Some (self, [],
              Raises (NetstringParseError in_doLength (b "xhi,"))))
  /\ (exists self,
         receive_all new [b "3x"; b "hi,"]
         = Some (self, [],
                 Raises (NetstringParseError in_doLength (b "x")))).
Proof. split; eexists; by vm_compute. Qed.

(** A new receiver fed a stream in chunks and fed it at once: the same
    frames, and the same end. *)
Lemma netstring_chunks (chunks : list bytes) :
  exists r1 r2,
    receive_all new chunks = Some r1
    /\ dataReceived new (concat chunks) = Some r2
    /\ same_outcome r1 r2.
Proof.
  assert (HI : Inv new) by (split; [done|discriminate]).
  destruct (receive_all_refines chunks new HI) as (r1 & H1 & Href1).
  destruct (dataReceived_refines new (concat chunks) HI) as (r2 & H2 & Href2).
  exists r1, r2. repeat split; [done|done|].
  rewrite feed_chunks_concat in Href1. by eapply refines_same.
Qed.

(** *** What is sent is what is received *)

Lemma doLength_digits_colon (m : Mode) (L : Z) (buf ds rest : bytes) :
  forallb is_digit ds = true ->
  doLength {| mode := m; length := L; __buffer := buf;
              __data := ds ++ ":"%byte :: rest |}
  = ({| mode := DATA; length := L * 10 ^ len ds + int ds;
        __buffer := []; __data := rest |}, Returns).
Proof.
  intros Hds. unfold doLength, NUMBER_match, m_end. simpl.
  rewrite span_digits_app by done. simpl.
  change (len [":"%byte]) with 1. pose proof (len_nonneg ds).
  destruct (len ds + 1 =? 0) eqn:E; [lia|].
  destruct ds; [|done]. rewrite len_nil. change (int []) with 0.
  do 3 f_equal. lia.
Qed.

Lemma netstring_roundtrip (P : bytes) :
  dataReceived new (sendString P)
  = Some ({| mode := LENGTH; length := 0; __buffer := P; __data := [] |},
          [P], Returns).
Proof.
  unfold dataReceived, sendString.
  destruct (format_d_spec (len P) (len_nonneg P)) as (Hne & Hds & Hint).
  set (ds := format_d (len P)) in *.
  change (b ":" ++ P ++ b ",") with (":"%byte :: P ++ [","%byte]).
  assert (Hfuel : exists f, (2 * Datatypes.length
                               (ds ++ ":"%byte :: P ++ [","%byte]) + 1)%nat
                            = S (S (S f))).
  { exists (2 * Datatypes.length (ds ++ ":"%byte :: P ++ [","%byte]) - 2)%nat.
    rewrite length_app. simpl. lia. }
  destruct Hfuel as [f ->].
  cbn [mode length __buffer new].
  assert (Hdata : ds ++ ":"%byte :: P ++ [","%byte] <> []) by (by destruct ds).
  remember (ds ++ ":"%byte :: P ++ [","%byte]) as wire eqn:Hw.
  destruct wire as [|w wire]; [done|].
  cbn [loop __data mode]. rewrite Hw. rewrite doLength_digits_colon by done.
  rewrite Hint. replace (0 * 10 ^ len ds + len P) with (len P) by lia.
  assert (Htake : take (Z.to_nat (len P)) (P ++ [","%byte]) = P).
  { unfold len. rewrite Nat2Z.id. by rewrite take_app_length. }
  assert (Hdrop : drop (Z.to_nat (len P)) (P ++ [","%byte]) = [","%byte]).
  { unfold len. rewrite Nat2Z.id. by rewrite drop_app_length. }
  destruct (P ++ [","%byte]) as [|p tl] eqn:HP; [by destruct P|].
  cbn [loop __data mode]. unfold doData. cbn [mode length __buffer __data].
  rewrite slice_to_nonneg, slice_from_nonneg by apply len_nonneg.
  rewrite Htake, Hdrop. rewrite Z.sub_diag. simpl negb. cbv iota.
  cbn [__data mode]. unfold doComma. cbn [mode length __buffer __data].
  change (negb (Byte.eqb ","%byte ","%byte)) with false. cbv iota.
  rewrite loop_nil by done. done.
Qed.

End NetstringClaims.

(** ** LineReceiver *)

Module LineFacts.
Import Line.

Lemma starts_with_spec (sep s : bytes) :
  starts_with sep s = true <-> exists t, s = sep ++ t.
Proof.
  revert s. induction sep as [|c sep IH]; intros s; simpl.
  - split; [eauto|done].
  - destruct s as [|d s].
    + split; [done|]. by intros [t Ht].
    + rewrite andb_true_iff, eqb_byte_true, IH. split.
      * intros [-> [t ->]]. eauto.
      * intros [t Ht]. inversion Ht; subst. eauto.
Qed.

Lemma starts_with_drop (sep s : bytes) :
  starts_with sep s = true -> s = sep ++ drop (Datatypes.length sep) s.
Proof.
  intros H. apply starts_with_spec in H as [t ->].
  by rewrite drop_app_length.
Qed.

Lemma starts_with_app_long (sep s u : bytes) :
  (Datatypes.length sep <= Datatypes.length s)%nat ->
  starts_with sep (s ++ u) = starts_with sep s.
Proof.
  revert s. induction sep as [|c sep IH]; intros s Hlen; [done|].
  destruct s as [|d s]; simpl in *; [lia|].
  rewrite IH by lia. done.
Qed.

Lemma find_sep_spec (sep s h t : bytes) :
  find_sep sep s = Some (h, t) -> s = h ++ sep ++ t.
Proof.
  revert h t. induction s as [|d s IH]; intros h t Hf; simpl in Hf.
  - destruct (starts_with sep []) eqn:E; [|done].
    inversion Hf; subst. by apply starts_with_drop in E.
  - destruct (starts_with sep (d :: s)) eqn:E.
    + inversion Hf; subst. by apply starts_with_drop in E.
    + destruct (find_sep sep s) as [[h' t']|]; [|done].
      inversion Hf; subst. by rewrite (IH _ _ eq_refl).
Qed.

(** The first occurrence of the delimiter does not move when bytes are
    appended. *)
Lemma find_sep_app (sep s u h t : bytes) :
  find_sep sep s = Some (h, t) -> find_sep sep (s ++ u) = Some (h, t ++ u).
Proof.
  revert h t. induction s as [|d s IH]; intros h t Hf.
  - simpl in Hf. destruct (starts_with sep []) eqn:E; [|done].
    inversion Hf; subst. destruct sep; [|done].
    simpl. destruct u; by rewrite ?drop_0.
  - pose proof (find_sep_spec _ _ _ _ Hf) as Hs.
    assert (Hlen : (Datatypes.length sep <= Datatypes.length (d :: s))%nat).
    { rewrite Hs, !length_app. lia. }
    cbn [find_sep app] in *.
    change (d :: s ++ u) with ((d :: s) ++ u).
    rewrite starts_with_app_long by done.
    destruct (starts_with sep (d :: s)) eqn:E.
    + inversion Hf; subst. by rewrite drop_app_le.
    + destruct (find_sep sep s) as [[h' t']|]; [|done].
      inversion Hf; subst. by rewrite (IH _ _ eq_refl).
Qed.

Lemma split1_app (s sep u h t : bytes) :
  split1 s sep = Some (h, t) -> split1 (s ++ u) sep = Some (h, t ++ u).
Proof. unfold split1. destruct sep; [done|]. apply find_sep_app. Qed.

Lemma split1_shorter (s sep h t : bytes) :
  split1 s sep = Some (h, t) ->
  (Datatypes.length t < Datatypes.length s)%nat.
Proof.
  unfold split1. destruct sep as [|c sep]; [done|]. intros Hf.
  apply find_sep_spec in Hf as ->. rewrite !length_app. simpl. lia.
Qed.

(** The [while]/[else] statement, unfolded once. *)
Lemma drain_unfold {A} `{Consumer A} (self : LineReceiver) (app : A) :
  drain self app
  = if line_mode self then
      match split1 (buffer self) (delimiter self) with
      | None => (self, app)
      | Some (line, rest) =>
          let '(app', raw) := lineReceived app line in
          drain {| line_mode := negb raw; buffer := rest;
                   delimiter := delimiter self |} app'
      end
    else
      ({| line_mode := false; buffer := []; delimiter := delimiter self |},
       match buffer self with
       | [] => app
       | _ :: _ => rawDataReceived app (buffer self)
       end).
Proof.
  funelim (drain self app).
  - rewrite Heq. by destruct (buffer self).
  - rewrite Heq, e. done.
  - rewrite Heq0, Hsplit, Heq. done.
Qed.

Section Recorder.
Variable to_raw : bytes -> bool.

#[local] Instance the_recorder : Consumer (list Call) := recorder to_raw.

(** The recorder only adds to its log. *)
Lemma drain_log (self : LineReceiver) (log : list Call) :
  drain self log = ((drain self []).1, log ++ (drain self []).2).
Proof.
  remember (Datatypes.length (buffer self)) as n eqn:Hn.
  revert self log Hn. induction (lt_wf n) as [n _ IH]. intros self log ->.
  rewrite (drain_unfold self log), (drain_unfold self []).
  destruct (line_mode self).
  - destruct (split1 (buffer self) (delimiter self)) as [[line rest]|] eqn:Hs.
    + simpl. apply split1_shorter in Hs.
      set (self' := {| line_mode := negb (to_raw line); buffer := rest;
                       delimiter := delimiter self |}).
      rewrite (IH _ Hs self' (log ++ [line_received line]) eq_refl).
      rewrite (IH _ Hs self' [line_received line] eq_refl).
      simpl. by rewrite <- app_assoc.
    + simpl. by rewrite app_nil_r.
  - simpl. destruct (buffer self); simpl; by rewrite ?app_nil_r.
Qed.

Lemma lines_app (l1 l2 : list Call) : lines (l1 ++ l2) = lines l1 ++ lines l2.
Proof. unfold lines. by rewrite flat_map_app. Qed.

Lemma raw_bytes_app (l1 l2 : list Call) :
  raw_bytes (l1 ++ l2) = raw_bytes l1 ++ raw_bytes l2.
Proof. unfold raw_bytes. by rewrite flat_map_app. Qed.

(** Draining, then draining again with more input, against draining
    with the input there from the start. *)
Lemma drain_more (self : LineReceiver) (data : bytes) :
  agree (drain (more (drain self []).1 data) (drain self []).2)
        (drain (more self data) []).
Proof.
  remember (Datatypes.length (buffer self)) as n eqn:Hn.
  revert self Hn. induction (lt_wf n) as [n _ IH]. intros self ->.
  rewrite (drain_unfold self []).
  destruct (line_mode self) eqn:Hm.
  - destruct (split1 (buffer self) (delimiter self)) as [[line rest]|] eqn:Hs.
    + rewrite (drain_unfold (more self data) []).
      cbn [more line_mode buffer delimiter].
      rewrite Hm, (split1_app _ _ data _ _ Hs). simpl.
      pose proof (split1_shorter _ _ _ _ Hs) as Hlt.
      set (self' := {| line_mode := negb (to_raw line); buffer := rest;
                       delimiter := delimiter self |}).
      specialize (IH _ Hlt self' eq_refl).
      change ({| line_mode := negb (to_raw line); buffer := rest ++ data;
                 delimiter := delimiter self |}) with (more self' data).
      rewrite (drain_log self' [line_received line]).
      rewrite (drain_log (more self' data) [line_received line]).
      cbn [fst snd].
      rewrite (drain_log _ ([line_received line] ++ _)).
      rewrite (drain_log _ (drain self' []).2) in IH.
      destruct IH as (IH1 & IH2 & IH3). cbn [fst snd] in *.
      repeat split; cbn [fst snd]; [done| |].
      * rewrite <- app_assoc, !lines_app. by rewrite <- lines_app, IH2.
      * rewrite <- app_assoc, !raw_bytes_app. by rewrite <- raw_bytes_app, IH3.
    + simpl. destruct self; done.
  - cbn [fst snd].
    rewrite (drain_unfold (more _ data) _), (drain_unfold (more self data) []).
    cbn [more line_mode buffer delimiter]. rewrite Hm. cbn [app].
    repeat split; cbn [fst snd].
    + destruct (buffer self), data; done.
    + destruct (buffer self), data; simpl; by rewrite ?app_nil_r.
Qed.

Lemma drain_idle (self : LineReceiver) (log : list Call) :
  idle (drain self log).1.
Proof.
  remember (Datatypes.length (buffer self)) as n eqn:Hn.
  revert self log Hn. induction (lt_wf n) as [n _ IH]. intros self log ->.
  rewrite (drain_unfold self log).
  destruct (line_mode self) eqn:Hm.
  - destruct (split1 (buffer self) (delimiter self)) as [[line rest]|] eqn:Hs.
    + simpl. apply split1_shorter in Hs.
      by apply (IH _ Hs {| line_mode := negb (to_raw line); buffer := rest;
                           delimiter := delimiter self |}).
    + intros log'. simpl. by rewrite drain_unfold, Hm, Hs.
  - intros log'. simpl. by rewrite drain_unfold.
Qed.

Lemma new_idle : idle new.
Proof. intros log. by rewrite drain_unfold. Qed.

Lemma agree_refl r : agree r r.
Proof. by repeat split. Qed.

Lemma agree_trans r1 r2 r3 : agree r1 r2 -> agree r2 r3 -> agree r1 r3.
Proof.
  intros (? & ? & ?) (? & ? & ?). repeat split; etrans; eauto.
Qed.

(** Feeding an object does not depend on what the recorder has in its
    log, beyond adding to it. *)
Lemma dataReceived_agree (self : LineReceiver) (data : bytes) log1 log2 :
  lines log1 = lines log2 -> raw_bytes log1 = raw_bytes log2 ->
  agree (dataReceived self data log1) (dataReceived self data log2).
Proof.
  intros Hl Hr. unfold dataReceived.
  rewrite (drain_log _ log1), (drain_log _ log2).
  repeat split; cbn [fst snd];
    [by rewrite !lines_app, Hl | by rewrite !raw_bytes_app, Hr].
Qed.

Lemma receive_all_agree (chunks : list bytes) (self : LineReceiver) log1 log2 :
  lines log1 = lines log2 -> raw_bytes log1 = raw_bytes log2 ->
  agree (receive_all self chunks log1) (receive_all self chunks log2).
Proof.
  revert self log1 log2. induction chunks as [|d chunks IH];
    intros self log1 log2 Hl Hr; [by repeat split|].
  cbn [receive_all].
  destruct (dataReceived_agree self d log1 log2 Hl Hr) as (E1 & E2 & E3).
  destruct (dataReceived self d log1) as [s1 l1].
  destruct (dataReceived self d log2) as [s2 l2].
  cbn [fst snd] in *. subst s2. by apply IH.
Qed.

Lemma line_chunks
  (chunks : list bytes) (self : LineReceiver) (log : list Call) :
  idle self ->
  agree (receive_all self chunks log) (dataReceived self (concat chunks) log).
Proof.
  revert self log. induction chunks as [|d chunks IH]; intros self log Hidle.
  - cbn [receive_all concat]. unfold dataReceived. rewrite app_nil_r.
    replace {| line_mode := line_mode self; buffer := buffer self;
               delimiter := delimiter self |} with self by (by destruct self).
    rewrite Hidle. apply agree_refl.
  - cbn [receive_all concat].
    destruct (dataReceived self d log) as [s1 l1] eqn:Hd.
    assert (Hidle1 : idle s1).
    { unfold dataReceived in Hd.
      pose proof (drain_idle (more self d) log) as Hi.
      unfold more in Hi. by rewrite Hd in Hi. }
    eapply agree_trans; [apply (IH s1 l1 Hidle1)|].
    unfold dataReceived in *.
    change {| line_mode := line_mode self; buffer := buffer self ++ d;
              delimiter := delimiter self |} with (more self d) in Hd.
    change {| line_mode := line_mode s1; buffer := buffer s1 ++ concat chunks;
              delimiter := delimiter s1 |} with (more s1 (concat chunks)).
    replace {| line_mode := line_mode self;
               buffer := buffer self ++ d ++ concat chunks;
               delimiter := delimiter self |}
      with (more (more self d) (concat chunks))
      by (unfold more; simpl; by rewrite app_assoc).
    pose proof (drain_more (more self d) (concat chunks)) as Hmore.
    rewrite (drain_log (more self d) log) in Hd. inversion Hd; subst.
    rewrite (drain_log _ (log ++ _)).
    rewrite (drain_log (more (more self d) _) log).
    rewrite (drain_log _ (drain (more self d) []).2) in Hmore.
    destruct Hmore as (M1 & M2 & M3). cbn [fst snd] in *.
    repeat split; cbn [fst snd]; [done| |].
    + rewrite <- app_assoc, !lines_app. by rewrite <- lines_app, M2.
    + rewrite <- app_assoc, !raw_bytes_app. by rewrite <- raw_bytes_app, M3.
Qed.

End Recorder.

End LineFacts.

(** ** LineReceiver: the claims *)

Section LineClaims.
Import Line LineFacts.

Lemma find_sep_here (sep s : bytes) :
  starts_with sep s = true ->
  find_sep sep s = Some ([], drop (Datatypes.length sep) s).
Proof. intros H. destruct s; simpl; by rewrite H. Qed.

Lemma find_sep_later (sep s : bytes) (c : byte) :
  starts_with sep (c :: s) = false ->
  find_sep sep (c :: s)
  = match find_sep sep s with
    | Some (h, t) => Some (c :: h, t)
    | None => None
    end.
Proof. intros H. simpl find_sep. by rewrite H. Qed.

Lemma occurs_tail (sep s : bytes) (c : byte) :
  occurs sep s -> occurs sep (c :: s).
Proof. intros (h & t & ->). by exists (c :: h), t. Qed.

(** A line that does not contain the delimiter, followed by the
    delimiter, is cut where the line ends, provided the delimiter cannot
    overlap itself. *)
Lemma find_sep_sent (sep line : bytes) :
  sep <> [] -> unbordered sep -> ~ occurs sep line ->
  find_sep sep (line ++ sep) = Some (line, []).
Proof.
  intros Hne Hub. induction line as [|c line IH]; intros Hocc.
  - cbn [app]. rewrite find_sep_here
      by (apply starts_with_spec; exists []; by rewrite app_nil_r).
    by rewrite drop_all.
  - assert (Hsw : starts_with sep ((c :: line) ++ sep) = false).
    { destruct (starts_with sep ((c :: line) ++ sep)) eqn:E; [|done].
      apply starts_with_spec in E as [t Ht].
      apply app_eq_app in Ht as [l [[H1 H2]|[H1 H2]]].
      - exfalso. apply Hocc. by exists [], l.
      - destruct (Hub l t (c :: line) H2 H1) as [->| ->].
        + exfalso. apply Hocc. exists [], []. by rewrite app_nil_r in *.
        + apply (f_equal Datatypes.length) in H1.
          rewrite length_app in H1. simpl in H1. lia. }
    cbn [app] in *. rewrite find_sep_later by done.
    rewrite IH; [done|]. intros Ho. by apply Hocc, occurs_tail.
Qed.

Lemma unbordered_crlf : unbordered [x0d; x0a].
Proof.
  intros x y z Hx Hz.
  destruct x as [|c1 [|c2 [|c3 x]]].
  - by left.
  - exfalso. inversion Hx; subst.
    destruct z as [|d1 [|d2 [|d3 z]]]; inversion Hz.
  - right. by inversion Hx.
  - inversion Hx.
Qed.

(** What [sendLine] writes, received by a new receiver. *)
Lemma line_roundtrip (line : bytes) :
  ~ occurs (delimiter new) line ->
  @dataReceived _ (recorder (fun _ => false)) new (sendLine new line) []
  = (new, [line_received line]).
Proof.
  intros Hocc. unfold dataReceived, sendLine.
  cbn [new line_mode buffer delimiter app] in *.
  rewrite drain_unfold. cbn [line_mode buffer delimiter split1].
  rewrite find_sep_sent; [|done|apply unbordered_crlf|done].
  cbn [lineReceived recorder negb app]. by rewrite drain_unfold.
Qed.

(** A delimiter that overlaps itself: the line "a" sent with the
    delimiter "aa" comes back as an empty line, and an "a" stays
    buffered. *)
Example line_roundtrip_bordered :
  let self := {| line_mode := true; buffer := []; delimiter := b "aa" |} in
  ~ occurs (delimiter self) (b "a")
  /\ @dataReceived _ (recorder (fun _ => false)) self (sendLine self (b "a")) []
     = ({| line_mode := true; buffer := b "a"; delimiter := b "aa" |},
        [line_received []]).
Proof.
  split; [|by vm_compute].
  intros (h & t & Heq). apply (f_equal Datatypes.length) in Heq.
  rewrite !length_app in Heq. simpl in Heq. lia.
Qed.

(** C4: when a [lineReceived] callback leaves line mode, the loop stops
    there: no further line is split off, what is left of the buffer goes
    to [rawDataReceived] in one call before [dataReceived] returns (no
    call when nothing is left), and the buffer is then empty. The
    statement is about the loop from any of its iterations, that is, for
    whichever line of the batch the callback switches on. A new receiver
    fed "cmd\r\nBINARYDATA" in one call, whose callback switches on the
    line "cmd", calls [lineReceived("cmd")] and then
    [rawDataReceived("BINARYDATA")]. *)
Theorem line_switch_to_raw_flushes {A} `{Consumer A}
  (self : LineReceiver) (app : A) (line rest : bytes) :
  line_mode self = true ->
  split1 (buffer self) (delimiter self) = Some (line, rest) ->
  (lineReceived app line).2 = true ->
  drain self app
  = ({| line_mode := false; buffer := []; delimiter := delimiter self |},
     match rest with
     | [] => (lineReceived app line).1
     | _ :: _ => rawDataReceived (lineReceived app line).1 rest
     end)
  /\ @dataReceived _ (recorder (fun l => bool_decide (l = b "cmd"))) new
       (b "cmd" ++ [x0d; x0a] ++ b "BINARYDATA") []
     = ({| line_mode := false; buffer := []; delimiter := [x0d; x0a] |},
        [line_received (b "cmd"); raw_data_received (b "BINARYDATA")]).
Proof.
  intros Hm Hs Hraw. split; [|by vm_compute].
  rewrite drain_unfold, Hm, Hs.
  destruct (lineReceived app line) as [app' raw]. simpl in Hraw. subst raw.
  rewrite drain_unfold. cbn [negb line_mode buffer delimiter fst].
  by destruct rest.
Qed.

Lemma line_switch_to_raw_flushes_witness :
  @drain _ (recorder (fun _ => true))
    {| line_mode := true; buffer := b "a" ++ [x0d; x0a] ++ b "xyz";
       delimiter := [x0d; x0a] |} []
  = ({| line_mode := false; buffer := []; delimiter := [x0d; x0a] |},
     [line_received (b "a"); raw_data_received (b "xyz")]).
Proof.
  exact (proj1 (@line_switch_to_raw_flushes _ (recorder (fun _ => true))
    {| line_mode := true; buffer := b "a" ++ [x0d; x0a] ++ b "xyz";
       delimiter := [x0d; x0a] |} [] (b "a") (b "xyz")
    eq_refl eq_refl eq_refl)).
Defined.

End LineClaims.

(** ** Int32StringReceiver *)

Module Int32Facts.
Import Int32.

#[local] Arguments Z.pow : simpl never.
#[local] Arguments Z.mul : simpl never.
#[local] Arguments Z.add : simpl never.
#[local] Arguments Z.sub : simpl never.
#[local] Arguments Z.div : simpl never.
#[local] Arguments Z.modulo : simpl never.

Lemma of_be32_be32 (u : Z) : 0 <= u < 2 ^ 32 -> of_be32 (be32 u) = Some u.
Proof.
  intros Hu. unfold of_be32, be32.
  change (2 ^ 32) with 4294967296 in Hu.
  change (2 ^ 24) with 16777216. change (2 ^ 16) with 65536.
  change (2 ^ 8) with 256.
  rewrite !ord_chr.
  - f_equal. Z.to_euclidean_division_equations. lia.
  - apply Z.mod_pos_bound. lia.
  - apply Z.mod_pos_bound. lia.
  - apply Z.mod_pos_bound. lia.
  - Z.to_euclidean_division_equations. lia.
Qed.

Lemma length_be32 (u : Z) : Datatypes.length (be32 u) = 4%nat.
Proof. reflexivity. Qed.

Lemma of_be32_bounded (s : bytes) (u : Z) :
  of_be32 s = Some u -> 0 <= u < 2 ^ 32.
Proof.
  destruct s as [|b3 [|b2 [|b1 [|b0 [|? ?]]]]]; try done.
  intros H; inversion H; subst; clear H.
  pose proof (ord_bounded b3). pose proof (ord_bounded b2).
  pose proof (ord_bounded b1). pose proof (ord_bounded b0).
  change (2 ^ 32) with 4294967296.
  change (2 ^ 24) with 16777216. change (2 ^ 16) with 65536.
  change (2 ^ 8) with 256. lia.
Qed.

(** The header is read as a signed number: a set top bit makes it
    negative. *)
Lemma unpack_i_be32 (u : Z) :
  0 <= u < 2 ^ 32 ->
  unpack_i (be32 u) = Some (if 2 ^ 31 <=? u then u - 2 ^ 32 else u).
Proof. intros Hu. unfold unpack_i. by rewrite of_be32_be32. Qed.

Lemma pack_i_spec (n : Z) (h : bytes) :
  pack_i n = Some h -> - 2 ^ 31 <= n < 2 ^ 31 /\ h = be32 (n mod 2 ^ 32).
Proof.
  unfold pack_i. destruct (_ && _) eqn:E; [|done].
  apply andb_true_iff in E as [E1 E2]. intros H; inversion H.
  split; [lia|done].
Qed.

Lemma pack_i_nonneg (n : Z) : 0 <= n < 2 ^ 31 -> pack_i n = Some (be32 n).
Proof.
  intros Hn. unfold pack_i.
  replace ((- 2 ^ 31 <=? n) && (n <? 2 ^ 31)) with true
    by (symmetry; apply andb_true_iff; lia).
  rewrite Z.mod_small; [done|]. lia.
Qed.

Lemma unpack_i_length (s : bytes) :
  Datatypes.length s = 4%nat -> is_Some (unpack_i s).
Proof.
  destruct s as [|b3 [|b2 [|b1 [|b0 [|? ?]]]]]; intros Hl; try done.
  all: unfold unpack_i; simpl; eauto.
Qed.

(** *** One iteration *)

Lemma header_slice (recvd : bytes) : slice_to recvd 4 = take 4 recvd.
Proof. by rewrite slice_to_nonneg. Qed.

Lemma iteration_short (recvd : bytes) : len recvd < 4 -> iteration recvd = Exit.
Proof.
  intros H. unfold iteration. destruct (len recvd >? 3) eqn:E; [lia|done].
Qed.

(** The iteration on a buffer whose header declares a non-negative
    length. *)
Lemma iteration_nonneg (recvd : bytes) (length : Z) :
  4 <= len recvd ->
  unpack_i (slice_to recvd 4) = Some length -> 0 <= length ->
  iteration recvd
  = if len recvd <? length + 4 then Exit
    else Deliver (take (Z.to_nat length) (drop 4 recvd))
                 (drop (Z.to_nat (length + 4)) recvd).
Proof.
  intros Hlen Hh Hl. unfold iteration.
  destruct (len recvd >? 3) eqn:E; [|lia]. rewrite Hh.
  destruct (len recvd <? length + 4); [done|].
  rewrite slice_nonneg, slice_from_nonneg by lia.
  do 3 f_equal. lia.
Qed.

Lemma iteration_no_error (recvd : bytes) : iteration recvd <> Error.
Proof.
  unfold iteration. destruct (len recvd >? 3) eqn:E; [|done].
  rewrite header_slice.
  destruct (unpack_i_length (take 4 recvd)) as [n ->].
  { rewrite length_take. unfold len in E. lia. }
  by destruct (len recvd <? n + 4).
Qed.

(** An iteration that delivers leaves a suffix of the buffer. *)
Lemma iteration_suffix (recvd packet recvd' : bytes) :
  iteration recvd = Deliver packet recvd' ->
  exists n, recvd' = drop n recvd.
Proof.
  unfold iteration. destruct (len recvd >? 3); [|done].
  destruct (unpack_i _) as [n|]; [|done].
  destruct (len recvd <? n + 4); [done|].
  intros H; inversion H. unfold slice_from. eauto.
Qed.

Lemma iteration_progress (recvd packet recvd' : bytes) :
  iteration recvd = Deliver packet recvd' ->
  (Datatypes.length recvd' < Datatypes.length recvd)%nat \/ recvd' = recvd.
Proof.
  intros H. destruct (iteration_suffix _ _ _ H) as [n ->].
  destruct n; [right; apply drop_0|left].
  rewrite length_drop.
  assert (4 <= len recvd).
  { unfold iteration in H. destruct (len recvd >? 3) eqn:E; [lia|done]. }
  unfold len in *. lia.
Qed.

(** *** The loop and the count of its iterations *)

Lemma loop_runs (fuel : nat) (recvd rest : bytes) packets c :
  loop fuel recvd = Some (rest, packets, c) -> runs recvd rest packets c.
Proof.
  revert recvd rest packets c.
  induction fuel as [|fuel IH]; intros recvd rest packets c H; [done|].
  simpl in H. destruct (iteration recvd) as [|p r'|] eqn:E.
  - inversion H; subst. by constructor.
  - destruct (loop fuel r') as [[[r ps] c']|] eqn:E'; [|done].
    inversion H; subst. eapply runs_deliver; eauto.
  - inversion H; subst. by constructor.
Qed.

Lemma loop_mono (fuel fuel' : nat) (recvd : bytes) r :
  loop fuel recvd = Some r -> (fuel <= fuel')%nat -> loop fuel' recvd = Some r.
Proof.
  revert fuel' recvd r.
  induction fuel as [|fuel IH]; intros fuel' recvd r H Hle; [done|].
  destruct fuel' as [|fuel']; [lia|].
  simpl in *. destruct (iteration recvd) as [|p r'|]; try done.
  destruct (loop fuel r') as [[[r0 ps] c']|] eqn:E'; [|done].
  by rewrite (IH fuel' r' _ E') by lia.
Qed.

(** An iteration that delivers and leaves the buffer as it is repeats
    for ever. *)
Lemma loop_stuck (fuel : nat) (recvd packet : bytes) :
  iteration recvd = Deliver packet recvd -> loop fuel recvd = None.
Proof.
  intros H. induction fuel as [|fuel IH]; [done|].
  simpl. by rewrite H, IH.
Qed.

(** If the loop ends at all, it ends within [len(recvd) + 1]
    iterations. *)
Lemma loop_fuel (recvd rest : bytes) packets c :
  runs recvd rest packets c ->
  (forall fuel, loop fuel recvd = None)
  \/ loop (S (Datatypes.length recvd)) recvd = Some (rest, packets, c).
Proof.
  induction 1 as [r He|r He|r p r' rest ps c He Hr IH].
  - right. simpl. by rewrite He.
  - right. simpl. by rewrite He.
  - destruct (iteration_progress _ _ _ He) as [Hlt| ->].
    + destruct IH as [IH|IH].
      * left. intros [|fuel]; [done|]. simpl. by rewrite He, IH.
      * right. simpl. rewrite He.
        by rewrite (loop_mono _ (Datatypes.length r) _ _ IH) by lia.
    + left. intros fuel. by eapply loop_stuck.
Qed.

(** A run on which every iteration shortens the buffer. *)
Lemma runs_loop (recvd rest : bytes) packets c :
  runs recvd rest packets c ->
  nonneg_headers recvd ->
  loop (S (Datatypes.length recvd)) recvd = Some (rest, packets, c).
Proof.
  induction 1 as [r He|r He|r p r' rest ps c He Hr IH]; intros Hnn.
  - simpl. by rewrite He.
  - simpl. by rewrite He.
  - inversion Hnn as [? He'|? n p' r'' Hh Hn He' Hnn']; subst;
      rewrite He in He'; [done|]. inversion He'; subst.
    assert (Hlen : 4 <= len r).
    { unfold iteration in He. destruct (len r >? 3) eqn:E; [lia|done]. }
    rewrite (iteration_nonneg _ _ Hlen Hh Hn) in He.
    destruct (len r <? n + 4) eqn:E; [done|]. inversion He; subst.
    simpl. rewrite (iteration_nonneg _ _ Hlen Hh Hn), E.
    specialize (IH Hnn').
    rewrite (loop_mono _ (Datatypes.length r) _ _ IH); [done|].
    rewrite length_drop. unfold len in *. lia.
Qed.

Lemma dataReceived_runs (self : Int32StringReceiver) (recd rest : bytes) ps c :
  runs (recvd self ++ recd) rest ps c ->
  nonneg_headers (recvd self ++ recd) ->
  dataReceived self recd = Some ({| recvd := rest |}, ps, c).
Proof.
  intros Hr Hnn. unfold dataReceived. by rewrite (runs_loop _ _ _ _ Hr Hnn).
Qed.

Lemma dataReceived_inv (self self' : Int32StringReceiver) (recd : bytes) ps c :
  dataReceived self recd = Some (self', ps, c) ->
  runs (recvd self ++ recd) (recvd self') ps c.
Proof.
  unfold dataReceived.
  destruct (loop _ _) as [[[r ps'] c']|] eqn:E; [|done].
  intros H; inversion H; subst. by eapply loop_runs.
Qed.

(** *** Chunk boundaries *)

Lemma take4_app (r u : bytes) : 4 <= len r -> take 4 (r ++ u) = take 4 r.
Proof. intros H. rewrite take_app_le; [done|]. unfold len in H. lia. Qed.

Lemma nonneg_runs (recvd : bytes) :
  nonneg_headers recvd -> exists rest ps, runs recvd rest ps Returns.
Proof.
  induction 1 as [r He|r n p r' Hh Hn He Hnn (rest & ps & IH)].
  - exists r, []. by constructor.
  - exists rest, (p :: ps). by eapply runs_deliver.
Qed.

Lemma runs_idle (recvd rest : bytes) ps :
  runs recvd rest ps Returns -> iteration rest = Exit.
Proof.
  remember Returns as c eqn:Hc. induction 1; subst; auto; done.
Qed.

(** The loop over [r], then over what it leaves followed by [u], against
    the loop over [r ++ u], when no length read is negative. *)
Lemma chunk_step (s : bytes) :
  nonneg_headers s ->
  forall r u, s = r ++ u ->
    exists rest1 ps1,
      runs r rest1 ps1 Returns
      /\ nonneg_headers r
      /\ nonneg_headers (rest1 ++ u)
      /\ forall rest ps c, runs (rest1 ++ u) rest ps c ->
                           runs (r ++ u) rest (ps1 ++ ps) c.
Proof.
  induction 1 as [s He|s n p s' Hh Hn He Hnn IH]; intros r u ->.
  - assert (Her : iteration r = Exit).
    { destruct (Z_lt_le_dec (len r) 4) as [Hlt|Hge];
        [by apply iteration_short|].
      unfold iteration in *. rewrite len_app in He.
      pose proof (len_nonneg u).
      destruct (len r + len u >? 3) eqn:E1; [|lia].
      destruct (len r >? 3) eqn:E2; [|lia].
      rewrite header_slice in *. rewrite take4_app in He by done.
      destruct (unpack_i (take 4 r)) as [m|]; [|done].
      destruct (len r + len u <? m + 4) eqn:E3; [|done].
      destruct (len r <? m + 4) eqn:E4; [done|lia]. }
    exists r, []. repeat split; [by constructor..|done].
  - assert (Hlen : 4 <= len (r ++ u)).
    { unfold iteration in He. destruct (len (r ++ u) >? 3) eqn:E; [lia|done]. }
    rewrite (iteration_nonneg _ _ Hlen Hh Hn) in He.
    destruct (len (r ++ u) <? n + 4) eqn:E; [done|]. inversion He; subst.
    rewrite len_app in E, Hlen. pose proof (len_nonneg u) as Hu.
    destruct (Z_lt_le_dec (len r) (n + 4)) as [Hshort|Hfull].
    + (* the frame is not complete in [r] *)
      assert (Her : iteration r = Exit).
      { destruct (Z_lt_le_dec (len r) 4) as [Hlt|Hge];
          [by apply iteration_short|].
        rewrite header_slice, take4_app in Hh by done.
        rewrite (iteration_nonneg r n) by (by rewrite ?header_slice).
        destruct (len r <? n + 4) eqn:E4; [done|lia]. }
      exists r, []. repeat split; [by constructor|by constructor| |done].
      eapply nonneg_deliver; eauto.
      rewrite (iteration_nonneg _ n); rewrite ?len_app; try done.
      destruct (len r + len u <? n + 4) eqn:E5; [lia|done].
    + assert (Hr4 : 4 <= len r) by lia.
      assert (Hhr : unpack_i (slice_to r 4) = Some n).
      { by rewrite header_slice, <- (take4_app r u), <- header_slice. }
      assert (Hdrop : drop (Z.to_nat (n + 4)) (r ++ u)
                      = drop (Z.to_nat (n + 4)) r ++ u).
      { apply drop_app_le. unfold len in Hfull. lia. }
      assert (Htake : take (Z.to_nat n) (drop 4 (r ++ u))
                      = take (Z.to_nat n) (drop 4 r)).
      { rewrite drop_app_le by (unfold len in Hr4; lia).
        apply take_app_le. rewrite length_drop. unfold len in Hfull. lia. }
      assert (Her : iteration r
                    = Deliver (take (Z.to_nat n) (drop 4 r))
                              (drop (Z.to_nat (n + 4)) r)).
      { rewrite (iteration_nonneg r n) by done.
        destruct (len r <? n + 4) eqn:E4; [lia|done]. }
      destruct (IH (drop (Z.to_nat (n + 4)) r) u Hdrop)
        as (rest1 & ps1 & Hruns & Hnr & Hnu & Hcont).
      exists rest1, (take (Z.to_nat n) (drop 4 r) :: ps1).
      repeat split.
      * by eapply runs_deliver.
      * by eapply nonneg_deliver.
      * done.
      * intros rest ps c Hr. specialize (Hcont _ _ _ Hr).
        cbn [app]. eapply runs_deliver; [|exact Hcont].
        rewrite (iteration_nonneg _ n); rewrite ?len_app; try done.
        destruct (len r + len u <? n + 4) eqn:E5; [lia|].
        by rewrite Htake, Hdrop.
Qed.

(** Chunk after chunk against all at once, from an object with nothing
    to deliver. *)
Lemma int32_chunks (chunks : list bytes) (self : Int32StringReceiver) :
  iteration (recvd self) = Exit ->
  nonneg_headers (recvd self ++ concat chunks) ->
  receive_all self chunks = dataReceived self (concat chunks)
  /\ is_Some (dataReceived self (concat chunks)).
Proof.
  revert self. induction chunks as [|d chunks IH]; intros self Hidle Hnn.
  - cbn [receive_all concat]. unfold dataReceived. rewrite app_nil_r.
    simpl. rewrite Hidle. destruct self; eauto.
  - cbn [receive_all concat] in *. rewrite app_assoc in Hnn.
    destruct (chunk_step _ Hnn (recvd self ++ d) (concat chunks) eq_refl)
      as (rest1 & ps1 & Hruns & Hnr & Hnu & Hcont).
    rewrite (dataReceived_runs self d _ _ _ Hruns Hnr).
    destruct (IH {| recvd := rest1 |}) as [IHeq [[[self2 ps] c] IHsome]];
      [by eapply runs_idle|done|].
    rewrite IHeq, IHsome.
    apply dataReceived_inv in IHsome. cbn [recvd] in IHsome.
    specialize (Hcont _ _ _ IHsome).
    rewrite <- app_assoc in Hcont, Hnn.
    rewrite (dataReceived_runs self _ _ _ _ Hcont) by done.
    destruct self2. eauto.
Qed.

(** *** What is sent is what is received *)

Lemma int32_frame (N : Z) (payload rest : bytes) :
  0 <= N < 2 ^ 31 -> len payload = N ->
  iteration (be32 N ++ payload ++ rest) = Deliver payload rest.
Proof.
  intros HN Hlen.
  assert (H4 : 4 <= len (be32 N ++ payload ++ rest)).
  { rewrite len_app. change (len (be32 N)) with 4.
    pose proof (len_nonneg (payload ++ rest)). lia. }
  assert (Hh : unpack_i (slice_to (be32 N ++ payload ++ rest) 4) = Some N).
  { rewrite header_slice.
    change (be32 N ++ payload ++ rest)
      with (be32 N ++ (payload ++ rest)).
    rewrite (take_app_length' (be32 N)) by done.
    rewrite unpack_i_be32 by (change (2 ^ 32) with 4294967296;
                              change (2 ^ 31) with 2147483648 in HN; lia).
    destruct (2 ^ 31 <=? N) eqn:E; [lia|done]. }
  rewrite (iteration_nonneg _ N) by (done || lia).
  rewrite !len_app. change (len (be32 N)) with 4.
  pose proof (len_nonneg rest).
  destruct (4 + (len payload + len rest) <? N + 4) eqn:E; [lia|].
  f_equal.
  - change (drop 4 (be32 N ++ payload ++ rest)) with (payload ++ rest).
    rewrite <- Hlen. unfold len. rewrite Nat2Z.id. apply take_app_length.
  - replace (Z.to_nat (N + 4)) with (4 + Datatypes.length payload)%nat
      by (unfold len in Hlen; lia).
    rewrite <- drop_drop.
    change (drop 4 (be32 N ++ payload ++ rest)) with (payload ++ rest).
    apply drop_app_length.
Qed.

Lemma int32_waits (N : Z) (payload : bytes) :
  0 <= N < 2 ^ 31 -> len payload < N ->
  iteration (be32 N ++ payload) = Exit.
Proof.
  intros HN Hlen.
  assert (H4 : 4 <= len (be32 N ++ payload)).
  { rewrite len_app. change (len (be32 N)) with 4.
    pose proof (len_nonneg payload). lia. }
  assert (Hh : unpack_i (slice_to (be32 N ++ payload) 4) = Some N).
  { rewrite header_slice.
    rewrite (take_app_length' (be32 N)) by done.
    rewrite unpack_i_be32 by (change (2 ^ 32) with 4294967296;
                              change (2 ^ 31) with 2147483648 in HN; lia).
    destruct (2 ^ 31 <=? N) eqn:E; [lia|done]. }
  rewrite (iteration_nonneg _ N) by (done || lia).
  rewrite !len_app. change (len (be32 N)) with 4.
  destruct (4 + len payload <? N + 4) eqn:E; [done|lia].
Qed.

Lemma int32_roundtrip (payload wire : bytes) :
  sendString payload = Some wire ->
  dataReceived new wire = Some (new, [payload], Returns).
Proof.
  unfold sendString. destruct (pack_i (len payload)) as [h|] eqn:Hp; [|done].
  intros H; inversion H; subst; clear H.
  apply pack_i_spec in Hp as [Hr ->]. pose proof (len_nonneg payload).
  rewrite Z.mod_small by (change (2 ^ 32) with 4294967296;
                          change (2 ^ 31) with 2147483648 in Hr; lia).
  unfold dataReceived. cbn [recvd new app].
  change (chr _ :: chr _ :: chr _ :: chr _ :: payload)
    with (be32 (len payload) ++ payload).
  cbn [loop].
  rewrite <- (app_nil_r payload) at 2.
  rewrite int32_frame by (done || lia).
  rewrite length_app. cbn [Datatypes.length be32 Nat.add loop].
  by rewrite iteration_short.
Qed.

End Int32Facts.

(** ** Int32StringReceiver: the claims *)

Section Int32Claims.
Import Int32 Int32Facts.

#[local] Arguments Z.pow : simpl never.
#[local] Arguments Z.mul : simpl never.
#[local] Arguments Z.add : simpl never.
#[local] Arguments Z.sub : simpl never.
#[local] Arguments Z.div : simpl never.
#[local] Arguments Z.modulo : simpl never.

Lemma int32_incomplete (self : Int32StringReceiver) (recd : bytes) :
  iteration (recvd self ++ recd) = Exit ->
  dataReceived self recd
  = Some ({| recvd := recvd self ++ recd |}, [], Returns).
Proof. intros He. unfold dataReceived. simpl. by rewrite He. Qed.

Lemma int32_header_clear (N : Z) (payload : bytes) :
  0 <= N < 2 ^ 31 -> waits_then_delivers N payload.
Proof.
  intros HN. split; intros Hlen.
  - apply (int32_incomplete new). by apply int32_waits.
  - apply int32_roundtrip. unfold sendString.
    by rewrite Hlen, pack_i_nonneg.
Qed.

(** C3, as stated, fails: a header with the top bit set is not waited
    for. The four bytes FF FF FF FF declare 2^32 - 1 bytes when read
    unsigned; the receiver, which reads them as -1, delivers an empty
    frame at once and drops three of the four bytes. *)
Lemma int32_unsigned_header_counterexample :
  ~ waits_then_delivers (2 ^ 32 - 1) [].
Proof.
  intros [Hwait _].
  assert (Hlt : len [] < 2 ^ 32 - 1) by (by vm_compute).
  specialize (Hwait Hlt). vm_compute in Hwait. discriminate.
Qed.

(** The loop's iteration on a buffer that starts with the four bytes of
    [N]: the length it works with is [N] read as a signed number. *)
Lemma iteration_header (N : Z) (payload : bytes) :
  0 <= N < 2 ^ 32 ->
  iteration (be32 N ++ payload)
  = (let length := if 2 ^ 31 <=? N then N - 2 ^ 32 else N in
     if len (be32 N ++ payload) <? length + 4 then Exit
     else Deliver (slice (be32 N ++ payload) 4 (length + 4))
                  (slice_from (be32 N ++ payload) (length + 4))).
Proof.
  intros HN. unfold iteration.
  assert (H4 : 4 <= len (be32 N ++ payload)).
  { rewrite len_app. change (len (be32 N)) with 4.
    pose proof (len_nonneg payload). lia. }
  destruct (len (be32 N ++ payload) >? 3) eqn:E; [|lia].
  rewrite header_slice, (take_app_length' (be32 N)) by done.
  by rewrite unpack_i_be32.
Qed.

(** A call that delivers a frame has not left its input waiting. *)
Lemma int32_delivers_not_waits (recd packet recvd' : bytes) :
  iteration recd = Deliver packet recvd' ->
  dataReceived new recd <> Some ({| recvd := recd |}, [], Returns).
Proof.
  intros Hit H. apply dataReceived_inv in H. cbn [recvd new app] in H.
  inversion H; congruence.
Qed.

(** C3, amended: the four-byte big-endian header is read as a signed
    32-bit integer, so a header with the top bit set declares a negative
    length. This is how the loop of [dataReceived] reads it: on a buffer
    that starts with the four bytes of any [0 <= N < 2^32], the length
    the iteration compares and slices with is [N] for [N < 2^31] and
    [N - 2^32] from there on; so a header with the top bit set is never
    waited for, whatever follows it: the iteration delivers at once. For
    every header declaring [0 <= N < 2^31] the receiver waits while
    fewer than [N] payload bytes follow the header, and when [N] bytes
    follow it delivers exactly those as one frame. *)
Theorem int32_header_is_signed (N : Z) (payload : bytes) :
  0 <= N < 2 ^ 32 ->
  unpack_i (be32 N) = Some (if 2 ^ 31 <=? N then N - 2 ^ 32 else N)
  /\ iteration (be32 N ++ payload)
     = (let length := if 2 ^ 31 <=? N then N - 2 ^ 32 else N in
        if len (be32 N ++ payload) <? length + 4 then Exit
        else Deliver (slice (be32 N ++ payload) 4 (length + 4))
                     (slice_from (be32 N ++ payload) (length + 4)))
  /\ (2 ^ 31 <= N ->
      iteration (be32 N ++ payload)
      = Deliver (slice (be32 N ++ payload) 4 (N - 2 ^ 32 + 4))
                (slice_from (be32 N ++ payload) (N - 2 ^ 32 + 4))
      /\ dataReceived new (be32 N ++ payload)
         <> Some ({| recvd := be32 N ++ payload |}, [], Returns))
  /\ (N < 2 ^ 31 -> waits_then_delivers N payload).
Proof.
  intros HN. split; [by apply unpack_i_be32|].
  split; [by apply iteration_header|]. split.
  - intros Htop.
    assert (Hit : iteration (be32 N ++ payload)
                  = Deliver (slice (be32 N ++ payload) 4 (N - 2 ^ 32 + 4))
                      (slice_from (be32 N ++ payload) (N - 2 ^ 32 + 4))).
    { rewrite iteration_header by done. cbv zeta.
      destruct (2 ^ 31 <=? N) eqn:E; [|lia].
      rewrite len_app. change (len (be32 N)) with 4.
      pose proof (len_nonneg payload).
      change (2 ^ 32) with 4294967296 in *.
      destruct (4 + len payload <? N - 4294967296 + 4) eqn:E'; [lia|done]. }
    split; [done|]. by eapply int32_delivers_not_waits.
  - intros Hlt. apply int32_header_clear. lia.
Qed.

Lemma int32_header_is_signed_witness :
  unpack_i (be32 (2 ^ 32 - 1)) = Some (- 1)
  /\ iteration (be32 (2 ^ 32 - 1) ++ b "abc")
     = Deliver [] ([xff] ++ b "abc")
  /\ dataReceived new (be32 (2 ^ 32 - 1) ++ b "abc")
     <> Some ({| recvd := be32 (2 ^ 32 - 1) ++ b "abc" |}, [], Returns)
  /\ dataReceived new (be32 3 ++ b "abc") = Some (new, [b "abc"], Returns).
Proof.
  split; [|split; [|split]].
  - refine (proj1 (int32_header_is_signed (2 ^ 32 - 1) [] _)). lia.
  - refine (proj1 (proj1 (proj2 (proj2
              (int32_header_is_signed (2 ^ 32 - 1) (b "abc") _))) _)); lia.
  - refine (proj2 (proj1 (proj2 (proj2
              (int32_header_is_signed (2 ^ 32 - 1) (b "abc") _))) _)); lia.
  - refine (proj2 (proj2 (proj2 (proj2
              (int32_header_is_signed 3 (b "abc") _))) _) _);
      [lia | lia | reflexivity].
Defined.

(** C6, as stated, fails on a buffer whose first four bytes have the top
    bit set, however the declared length is read. FF FF FF FF is -1 for
    the receiver, which then consumes three bytes, not the header and
    the payload, and delivers an empty frame, not one of -1 bytes; read
    unsigned it declares 2^32 - 1 bytes, and the receiver does not
    wait. *)
Lemma int32_top_bit_counterexample :
  ~ buffers_until_complete unpack_i [xff; xff; xff; xff]
  /\ ~ buffers_until_complete of_be32 [xff; xff; xff; xff].
Proof.
  split; intros Hclaim.
  - destruct (Hclaim (- 1) eq_refl) as [_ Hdeliver].
    destruct Hdeliver as (packet & _ & Hlen & _); [by vm_compute|].
    pose proof (len_nonneg packet). lia.
  - destruct (Hclaim (2 ^ 32 - 1) eq_refl) as [Hwait _].
    assert (Hlt : len [xff; xff; xff; xff] < 4 + (2 ^ 32 - 1))
      by (by vm_compute).
    specialize (Hwait Hlt). vm_compute in Hwait. discriminate.
Qed.

(** C6, amended: with at least four bytes buffered and a non-negative
    declared length read from the first four, [dataReceived] consumes
    nothing and delivers nothing while fewer than [4 + declared] bytes
    are buffered; once they are, the iteration consumes the header and
    the payload together and delivers exactly the [declared] payload
    bytes; a declared length of 0 delivers an empty frame. A header
    declaring 5 followed by 3 bytes delivers nothing, and the 2 bytes
    that follow complete one frame of 5 bytes. *)
Theorem int32_buffers_until_complete
  (self : Int32StringReceiver) (recd : bytes) (declared : Z) :
  4 <= len (recvd self ++ recd) ->
  unpack_i (slice_to (recvd self ++ recd) 4) = Some declared ->
  0 <= declared ->
  buffers_until_complete unpack_i (recvd self ++ recd)
  /\ (len (recvd self ++ recd) < 4 + declared ->
      dataReceived self recd
      = Some ({| recvd := recvd self ++ recd |}, [], Returns))
  /\ (declared = 0 ->
      iteration (recvd self ++ recd) = Deliver [] (drop 4 (recvd self ++ recd)))
  /\ dataReceived new (be32 5 ++ b "abc")
     = Some ({| recvd := be32 5 ++ b "abc" |}, [], Returns)
  /\ receive_all new [be32 5 ++ b "abc"; b "de"]
     = Some (new, [b "abcde"], Returns).
Proof.
  intros Hlen Hh Hd.
  set (buf := recvd self ++ recd) in *.
  pose proof (iteration_nonneg buf declared Hlen Hh Hd) as Hit.
  split; [|split; [|split; [|split; by vm_compute]]].
  - intros declared' Hh'. rewrite Hh in Hh'. inversion Hh'; subst declared'.
    split; intros Hc.
    + rewrite Hit. destruct (len buf <? declared + 4) eqn:E; [done|lia].
    + exists (take (Z.to_nat declared) (drop 4 buf)).
      rewrite Hit. destruct (len buf <? declared + 4) eqn:E; [lia|].
      replace (Z.to_nat (4 + declared)) with (4 + Z.to_nat declared)%nat by lia.
      repeat split.
      * do 2 f_equal. lia.
      * unfold len in *. rewrite length_take, length_drop. lia.
      * rewrite <- drop_drop. by rewrite !take_drop.
  - intros Hc. apply int32_incomplete. fold buf. rewrite Hit.
    destruct (len buf <? declared + 4) eqn:E; [done|lia].
  - intros ->. rewrite Hit.
    destruct (len buf <? 0 + 4) eqn:E; [lia|]. done.
Qed.

Lemma int32_buffers_until_complete_witness :
  dataReceived {| recvd := be32 2 |} (b "a")
  = Some ({| recvd := be32 2 ++ b "a" |}, [], Returns).
Proof.
  refine (proj1 (proj2 (int32_buffers_until_complete
                          {| recvd := be32 2 |} (b "a") 2 _ eq_refl _)) _);
    by vm_compute.
Defined.

End Int32Claims.

(** ** StatefulStringProtocol: the claims *)

Section StatefulClaims.
Import Stateful.

Lemma stringReceived_miss (self : StatefulStringProtocol) (string : bytes) :
  attributes self !! ("proto_" ++ state self)%string = None ->
  stringReceived self string
  = {| state := state self; attributes := attributes self;
       calls := calls self;
       printed := printed self
                  ++ [("callback " ++ state self ++ " not found")%string];
       connection_lost := connection_lost self |}.
Proof. intros H. unfold stringReceived. by rewrite H. Qed.

Lemma deliver_miss (frames : list bytes) (self : StatefulStringProtocol) :
  attributes self !! ("proto_" ++ state self)%string = None ->
  state (deliver self frames) = state self
  /\ attributes (deliver self frames) = attributes self
  /\ calls (deliver self frames) = calls self
  /\ connection_lost (deliver self frames) = connection_lost self
  /\ printed (deliver self frames)
     = printed self
       ++ replicate (Datatypes.length frames)
            ("callback " ++ state self ++ " not found")%string.
Proof.
  revert self. induction frames as [|f frames IH]; intros self Hmiss.
  - simpl. by rewrite app_nil_r.
  - unfold deliver in *. cbn [fold_left]. rewrite stringReceived_miss by done.
    match goal with
    | |- context [fold_left _ _ ?s] =>
        destruct (IH s) as (-> & -> & -> & -> & ->); [done|]
    end. simpl. by rewrite <- app_assoc.
Qed.

(** C9: when the object has no [proto_<state>] attribute for its current
    state, [stringReceived] prints that the callback was not found, calls
    no handler, leaves [state] as it is and does not close the
    connection; it returns normally, so the receiver goes on decoding,
    and every later frame is dispatched against the same state (and
    misses in the same way). *)
Theorem stateful_unknown_state
  (self : StatefulStringProtocol) (string : bytes) (frames : list bytes) :
  attributes self !! ("proto_" ++ state self)%string = None ->
  stringReceived self string
  = {| state := state self; attributes := attributes self;
       calls := calls self;
       printed := printed self
                  ++ [("callback " ++ state self ++ " not found")%string];
       connection_lost := connection_lost self |}
  /\ state (deliver self frames) = state self
  /\ calls (deliver self frames) = calls self
  /\ connection_lost (deliver self frames) = connection_lost self
  /\ printed (deliver self frames)
     = printed self
       ++ replicate (Datatypes.length frames)
            ("callback " ++ state self ++ " not found")%string.
Proof.
  intros Hmiss. split; [by apply stringReceived_miss|].
  destruct (deliver_miss frames self Hmiss) as (? & ? & ? & ? & ?). done.
Qed.

Lemma stateful_unknown_state_witness :
  state (deliver (new {[ "proto_start" := fun _ => "done" ]})
           [b "one"; b "two"]) = "init".
Proof.
  exact (proj1 (proj2 (stateful_unknown_state
    (new {[ "proto_start" := fun _ => "done" ]}) [] [b "one"; b "two"]
    eq_refl))).
Defined.

End StatefulClaims.

(** ** The three receivers together *)

Section Framing.

(** C1, as stated, fails for [Int32StringReceiver]: the stream
    FF FF FF FB 61 62 fed at once delivers the frame "a", and fed as
    FF FF FF FB, then 61 62, delivers an empty frame. The header is read
    as -5, and the slices the loop takes with a negative bound depend on
    how much is buffered. *)
Lemma int32_chunks_counterexample :
  ~ Int32.chunk_invariant [[xff; xff; xff; xfb]; b "ab"].
Proof. unfold Int32.chunk_invariant. vm_compute. discriminate. Qed.

(** C1, amended: for every stream and every way to cut it in chunks,
    feeding a new receiver chunk by chunk and feeding it the whole
    stream at once
    - deliver the same frames and end the same way, both returning in
      the same mode with the same pending length or both raising
      [NetstringParseError] from the same method, for
      [NetstringReceiver];
    - make the same [lineReceived] calls, pass the same raw bytes on and
      leave the same object, for a [LineReceiver] whose callbacks do no
      more than switch to raw mode;
    - deliver the same frames and leave the same object, for
      [Int32StringReceiver], when no length read from the stream is
      negative. *)
Theorem chunk_boundary_invariance
  (chunks : list bytes) (to_raw : bytes -> bool) :
  (exists r1 r2,
      Netstring.receive_all Netstring.new chunks = Some r1
      /\ Netstring.dataReceived Netstring.new (concat chunks) = Some r2
      /\ Netstring.same_outcome r1 r2)
  /\ Line.agree
       (@Line.receive_all _ (Line.recorder to_raw) Line.new chunks [])
       (@Line.dataReceived _ (Line.recorder to_raw) Line.new
          (concat chunks) [])
  /\ (Int32.nonneg_headers (concat chunks) ->
      Int32.receive_all Int32.new chunks
      = Int32.dataReceived Int32.new (concat chunks)
      /\ is_Some (Int32.dataReceived Int32.new (concat chunks))).
Proof.
  split; [apply netstring_chunks|split].
  - apply (LineFacts.line_chunks to_raw), LineFacts.new_idle.
  - intros Hnn. by apply Int32Facts.int32_chunks.
Qed.

Lemma chunk_boundary_invariance_witness :
  Int32.receive_all Int32.new [be32 2 ++ b "a"; b "b"; be32 0]
  = Int32.dataReceived Int32.new (concat [be32 2 ++ b "a"; b "b"; be32 0]).
Proof.
  refine (proj1 (proj2 (proj2 (chunk_boundary_invariance
            [be32 2 ++ b "a"; b "b"; be32 0] (fun _ => false))) _)).
  eapply (Int32.nonneg_deliver _ 2); [reflexivity|lia|reflexivity|].
  eapply (Int32.nonneg_deliver _ 0); [reflexivity|lia|reflexivity|].
  apply Int32.nonneg_exit. reflexivity.
Defined.

(** [sendString] cannot send 2^31 bytes or more. *)
Lemma int32_too_long (payload : bytes) :
  2 ^ 31 <= len payload -> ~ Int32.round_trips payload.
Proof.
  intros Hlen (wire & Hsend & _). unfold Int32.sendString, pack_i in Hsend.
  destruct (_ && _) eqn:E; [|done].
  apply andb_true_iff in E as [_ E]. lia.
Qed.

Lemma len_replicate (n : Z) (c : byte) :
  0 <= n -> len (replicate (Z.to_nat n) c) = n.
Proof. intros Hn. unfold len. rewrite length_replicate. by apply Z2Nat.id. Qed.

(** C2, as stated, fails for [Int32StringReceiver]: the length of a
    payload of 2^31 bytes does not fit the signed 32-bit header, and
    [sendString] raises [struct.error] instead of writing. *)
Lemma int32_roundtrip_counterexample :
  ~ Int32.round_trips (replicate (Z.to_nat (2 ^ 31)) x00).
Proof.
  apply int32_too_long. rewrite len_replicate; [reflexivity|]. discriminate.
Qed.

(** C2, amended: what the encoder of a discipline writes for a payload
    [P], fed to a new receiver of that discipline, delivers the one frame
    [P] and leaves no unread input, for every [P], the empty one
    included, with [NetstringReceiver] (which is back in LENGTH mode with
    length 0, the whole chunk read); for every [P] in which the
    delimiter, CR LF, does not occur, with [LineReceiver] (whose buffer
    is empty again); and for every [P] shorter than 2^31 bytes with
    [Int32StringReceiver] (whose buffer is empty again). *)
Theorem roundtrip (P : bytes) :
  Netstring.dataReceived Netstring.new (Netstring.sendString P)
  = Some ({| Netstring.mode := Netstring.LENGTH; Netstring.length := 0;
             Netstring.__buffer := P; Netstring.__data := [] |},
          [P], Netstring.Returns)
  /\ (~ Line.occurs (Line.delimiter Line.new) P ->
      @Line.dataReceived _ (Line.recorder (fun _ => false)) Line.new
        (Line.sendLine Line.new P) []
      = (Line.new, [Line.line_received P]))
  /\ (len P < 2 ^ 31 -> Int32.round_trips P).
Proof.
  split; [apply netstring_roundtrip|split; [apply line_roundtrip|]].
  intros Hlen. unfold Int32.round_trips, Int32.sendString.
  rewrite Int32Facts.pack_i_nonneg by (pose proof (len_nonneg P); lia).
  eexists. split; [done|].
  apply Int32Facts.int32_roundtrip. unfold Int32.sendString.
  by rewrite Int32Facts.pack_i_nonneg by (pose proof (len_nonneg P); lia).
Qed.

Lemma roundtrip_witness :
  @Line.dataReceived _ (Line.recorder (fun _ => false)) Line.new
    (Line.sendLine Line.new []) []
  = (Line.new, [Line.line_received []])
  /\ Int32.round_trips (b "hi").
Proof.
  split.
  - refine (proj1 (proj2 (roundtrip [])) _).
    intros (h & t & Heq). destruct h; discriminate.
  - refine (proj2 (proj2 (roundtrip (b "hi"))) _). reflexivity.
Defined.

End Framing.

(** * Further properties *)

(** ** NetstringReceiver *)

Section NetstringMore.
Import Netstring NetstringSpec NetstringFacts.

#[local] Arguments is_digit : simpl never.
#[local] Arguments Z.pow : simpl never.
#[local] Arguments Z.mul : simpl never.
#[local] Arguments Z.add : simpl never.
#[local] Arguments Z.sub : simpl never.

Lemma doComma_raises_state (self self' : NetstringReceiver) (e : Exception) :
  doComma self = (self', Raises e) ->
  self' = {| mode := LENGTH; length := length self;
             __buffer := __buffer self; __data := __data self |}.
Proof.
  unfold doComma. cbn [mode length __buffer __data].
  destruct (__data self) as [|c rest]; [by intros H; inversion H|].
  destruct (negb (Byte.eqb c ","%byte)); intros H; by inversion H.
Qed.

Lemma doLength_raises_state (self self' : NetstringReceiver) (e : Exception) :
  doLength self = (self', Raises e) -> self' = self.
Proof.
  unfold doLength. destruct (m_end _ =? 0); [by intros H; inversion H|].
  by destruct (group2 _).
Qed.

(** What a run leaves behind: nothing unread when it returns; LENGTH
    mode when it raises, and length 0 if it was [doComma] that raised. *)
Lemma loop_end (fuel : nat) (self self' : NetstringReceiver) fs c :
  Inv self -> loop fuel self = Some (self', fs, c) ->
  match c with
  | Returns => __data self' = []
  | Raises (NetstringParseError in_doComma _) =>
      mode self' = LENGTH /\ length self' = 0
  | Raises (NetstringParseError in_doLength _) =>
      mode self' = LENGTH /\ 0 <= length self'
  | Raises IndexError => False
  end.
Proof.
  revert self self' fs c.
  induction fuel as [|fuel IH]; intros self self' fs c HI Hloop.
  - simpl in Hloop. destruct (__data self) eqn:Hd; [|done].
    by inversion Hloop; subst.
  - simpl in Hloop. destruct (__data self) as [|d0 d] eqn:Hd.
    { by inversion Hloop; subst. }
    assert (Hne : __data self <> []) by (by rewrite Hd).
    destruct (mode self) eqn:Hm.
    + destruct (doLength self) as [self1 [|e]] eqn:Hstep.
      * destruct (doLength_returns _ _ Hm (proj1 HI) Hstep) as (_ & HI' & _).
        by eapply IH.
      * destruct (doLength_raises _ _ _ Hm Hne Hstep) as (-> & _).
        apply doLength_raises_state in Hstep as ->.
        inversion Hloop; subst. split; [done|apply HI].
    + destruct (doData self) as [self1 fs1] eqn:Hstep.
      destruct (doData_spec _ _ _ HI Hm Hne Hstep) as (_ & HI' & _).
      destruct (loop fuel self1) as [[[self2 fs2] c2]|] eqn:Hrec; [|done].
      inversion Hloop; subst. by eapply IH.
    + destruct (doComma self) as [self1 [|e]] eqn:Hstep.
      * destruct (doComma_returns _ _ HI Hm Hstep) as (_ & HI' & _).
        by eapply IH.
      * destruct (doComma_raises _ _ _ Hm Hne Hstep) as (-> & _).
        apply doComma_raises_state in Hstep as ->.
        inversion Hloop; subst. split; [done|]. by apply HI.
Qed.

Lemma dataReceived_end (self self' : NetstringReceiver) (data : bytes) fs c :
  Inv self -> dataReceived self data = Some (self', fs, c) ->
  match c with
  | Returns => __data self' = []
  | Raises (NetstringParseError in_doComma _) =>
      mode self' = LENGTH /\ length self' = 0
  | Raises (NetstringParseError in_doLength _) =>
      mode self' = LENGTH /\ 0 <= length self'
  | Raises IndexError => False
  end.
Proof. intros HI. unfold dataReceived. by apply loop_end. Qed.

Lemma receive_all_end (chunks : list bytes) (self self' : NetstringReceiver) fs :
  Inv self -> __data self = [] ->
  receive_all self chunks = Some (self', fs, Returns) ->
  Inv self' /\ __data self' = [].
Proof.
  revert self fs. induction chunks as [|d chunks IH]; intros self fs HI Hd H.
  - simpl in H. by inversion H; subst.
  - cbn [receive_all] in H.
    destruct (dataReceived_refines self d HI) as ([[self1 fs1] c1] & Hd1 & Href).
    rewrite Hd1 in H. destruct c1 as [|e]; [|by inversion H].
    pose proof (dataReceived_end _ _ _ _ _ HI Hd1) as Hnil.
    inversion Href; subst.
    destruct (receive_all self1 chunks) as [[[self2 fs2] c2]|] eqn:Hrec; [|done].
    inversion H; subst. by eapply IH.
Qed.

Lemma Inv_new : Inv new.
Proof. split; [done|discriminate]. Qed.

Lemma refines_ends r x : refines r x -> ends (Some r).
Proof. by destruct 1. Qed.

(** X1: the loop of [dataReceived] always ends on a receiver that was
    new once. Whatever chunks a new receiver is fed, the calls end, in a
    return or in a [NetstringParseError] (no other exception is raised);
    and when they have all returned, the receiver has read every chunk
    to its end, its pending length is not negative, it is 0 in COMMA
    mode, and the next call ends in one of these two ways too, whatever
    the data. *)
Theorem netstring_calls_end
  (chunks : list bytes) (self : NetstringReceiver) (fs : list bytes)
  (data : bytes) :
  receive_all new chunks = Some (self, fs, Returns) ->
  (forall chunks', ends (receive_all new chunks'))
  /\ __data self = []
  /\ 0 <= length self
  /\ (mode self = COMMA -> length self = 0)
  /\ ends (dataReceived self data).
Proof.
  intros H.
  destruct (receive_all_end chunks new self fs Inv_new eq_refl H) as [HI Hd].
  split; [|split; [done|split; [apply HI|split; [apply HI|]]]].
  - intros chunks'.
    destruct (receive_all_refines chunks' new Inv_new) as (r & -> & Href).
    by eapply refines_ends.
  - destruct (dataReceived_refines self data HI) as (r & -> & Href).
    by eapply refines_ends.
Qed.

Lemma netstring_calls_end_witness :
  ends (dataReceived
          {| mode := DATA; length := 1; __buffer := b "ab"; __data := [] |}
          (b "c,9")).
Proof.
  exact (proj2 (proj2 (proj2 (proj2
    (netstring_calls_end [b "3:a"; b "b"] _ [] (b "c,9") eq_refl))))).
Defined.

(** X2: a payload is collected across chunks and delivered only when it
    is complete. In DATA mode a chunk shorter than the pending length is
    appended to what was collected, the pending length goes down by the
    chunk's length, and [stringReceived] is not called. *)
Theorem netstring_partial_payload (self : NetstringReceiver) (data : bytes) :
  mode self = DATA ->
  len data < length self ->
  dataReceived self data
  = Some ({| mode := DATA; length := length self - len data;
             __buffer := __buffer self ++ data; __data := [] |},
          [], Returns).
Proof.
  destruct self as [m L buf d0]. cbn [mode length __buffer]. intros -> Hlen.
  unfold dataReceived. cbn [mode length __buffer].
  destruct data as [|c data].
  - simpl. rewrite len_nil, app_nil_r. do 4 f_equal. lia.
  - replace (2 * Datatypes.length (c :: data) + 1)%nat
      with (S (2 * Datatypes.length data + 2)) by (simpl; lia).
    cbn [loop __data mode]. unfold doData.
    cbn [mode length __buffer __data].
    pose proof (len_nonneg (c :: data)) as Hpos.
    rewrite slice_to_nonneg, slice_from_nonneg by lia.
    rewrite take_ge, drop_ge by (unfold len in Hlen; lia).
    destruct (L - len (c :: data) =? 0) eqn:E; [lia|].
    cbn [negb]. by rewrite loop_nil.
Qed.

Lemma netstring_partial_payload_witness :
  dataReceived
    {| mode := DATA; length := 5; __buffer := b "ab"; __data := [] |} (b "cd")
  = Some ({| mode := DATA; length := 3; __buffer := b "abcd"; __data := [] |},
          [], Returns).
Proof.
  exact (netstring_partial_payload
           {| mode := DATA; length := 5; __buffer := b "ab"; __data := [] |}
           (b "cd") eq_refl eq_refl).
Defined.

(** The specification's decoder on one encoded frame and what follows. *)
Lemma feed_padded_frame (k : nat) (P rest : bytes) :
  feed (ReadingLength 0) (replicate k "0"%byte ++ sendString P ++ rest)
  = let '(fs, x) := feed (ReadingLength 0) rest in (P :: fs, x).
Proof.
  unfold sendString.
  destruct (format_d_spec (len P) (len_nonneg P)) as (Hne & Hds & Hint).
  set (ds := format_d (len P)) in *.
  change (b ":" ++ P ++ b ",") with (":"%byte :: P ++ [","%byte]).
  assert (Hz : forallb is_digit (replicate k "0"%byte) = true
               /\ int (replicate k "0"%byte) = 0).
  { induction k as [|k [IH1 IH2]]; [done|]. split.
    - simpl. by rewrite IH1.
    - change (replicate (S k) "0"%byte) with (["0"%byte] ++ replicate k "0"%byte).
      rewrite int_app, IH2. by vm_compute. }
  destruct Hz as [Hz1 Hz2].
  rewrite <- !app_assoc. rewrite app_assoc.
  rewrite feed_digits by (by rewrite forallb_app, Hz1, Hds).
  rewrite int_app, Hz2, Hint.
  replace (0 * 10 ^ len (replicate k "0"%byte ++ ds) + (0 * 10 ^ len ds + len P))
    with (len P) by lia.
  cbn [app feed step]. rewrite colon_not_digit.
  change (Byte.eqb ":"%byte ":"%byte) with true. cbv iota.
  destruct (Z.eq_dec (len P) 0) as [H0|H0].
  - apply len_zero in H0 as HP. subst P. cbn [app]. rewrite len_nil.
    rewrite feed_payload_zero. cbn [feed step]. unfold terminator.
    change (Byte.eqb ","%byte ","%byte) with true. cbv iota.
    by destruct (feed (ReadingLength 0) rest) as [fs x].
  - rewrite <- app_assoc.
    rewrite feed_payload_complete by (pose proof (len_nonneg P); lia || done).
    cbn [app feed step]. unfold terminator.
    change (Byte.eqb ","%byte ","%byte) with true. cbv iota.
    by destruct (feed (ReadingLength 0) rest) as [fs x].
Qed.

Lemma feed_frames (Ps : list bytes) :
  feed (ReadingLength 0) (concat (map sendString Ps))
  = (Ps, inl (ReadingLength 0)).
Proof.
  induction Ps as [|P Ps IH]; [done|].
  cbn [map concat].
  pose proof (feed_padded_frame 0 P (concat (map sendString Ps))) as H.
  cbn [replicate app] in H. by rewrite H, IH.
Qed.

Lemma refines_returns_inv r (fs : list bytes) (n : Z) :
  refines r (fs, inl (ReadingLength n)) ->
  exists self, r = (self, fs, Returns)
               /\ mode self = LENGTH /\ length self = n.
Proof.
  intros H. inversion H as [self fs' HI Heq Habs|]; subst.
  exists self. split; [done|].
  match goal with E : abs _ = _ |- _ => unfold abs in E; revert E end.
  destruct (mode self); intros E; by inversion E.
Qed.

(** X3: several netstrings in one chunk are all delivered, in order. A
    new receiver fed what [sendString] writes for the payloads [Ps], one
    after the other in a single chunk, calls [stringReceived] with each
    payload in turn, raises nothing and is back in LENGTH mode with
    length 0, the chunk read to its end. *)
Theorem netstring_frames_in_one_chunk (Ps : list bytes) :
  exists self,
    dataReceived new (concat (map sendString Ps)) = Some (self, Ps, Returns)
    /\ mode self = LENGTH /\ length self = 0 /\ __data self = [].
Proof.
  destruct (dataReceived_refines new (concat (map sendString Ps)) Inv_new)
    as (r & Hr & Href).
  change (abs new) with (ReadingLength 0) in Href. rewrite feed_frames in Href.
  apply refines_returns_inv in Href as (self & -> & Hm & HL).
  exists self. repeat split; try done.
  by apply (dataReceived_end _ _ _ _ _ Inv_new Hr).
Qed.

(** X4: zeros in front of the length are accepted. A netstring whose
    length field is written with any number of leading zeros is received
    as the same netstring without them. *)
Theorem netstring_leading_zeros (k : nat) (P : bytes) :
  exists self,
    dataReceived new (replicate k "0"%byte ++ sendString P)
    = Some (self, [P], Returns)
    /\ mode self = LENGTH /\ length self = 0.
Proof.
  destruct (dataReceived_refines new (replicate k "0"%byte ++ sendString P)
              Inv_new) as (r & Hr & Href).
  change (abs new) with (ReadingLength 0) in Href.
  rewrite <- (app_nil_r (sendString P)) in Href.
  rewrite feed_padded_frame in Href. cbn [feed] in Href.
  apply refines_returns_inv in Href as (self & -> & Hm & HL).
  by exists self.
Qed.

(** X5: a missing comma does not put the receiver out of use. After a
    call that raised [NetstringParseError] from [doComma], the receiver
    is in LENGTH mode with length 0, and on any further data it delivers
    the frames and ends as a new receiver does; the rest of the chunk
    that raised is dropped. *)
Theorem netstring_resumes_after_missing_comma
  (self self' : NetstringReceiver) (d args data : bytes) (fs : list bytes) :
  0 <= length self -> (mode self = COMMA -> length self = 0) ->
  dataReceived self d
  = Some (self', fs, Raises (NetstringParseError in_doComma args)) ->
  mode self' = LENGTH /\ length self' = 0
  /\ exists r1 r2,
       dataReceived self' data = Some r1
       /\ dataReceived new data = Some r2
       /\ same_outcome r1 r2.
Proof.
  intros H0 HC Hd. assert (HI : Inv self) by done.
  destruct (dataReceived_end _ _ _ _ _ HI Hd) as [Hm HL].
  split; [done|split; [done|]].
  assert (HI' : Inv self') by (split; [lia|by rewrite HL]).
  destruct (dataReceived_refines self' data HI') as (r1 & Hr1 & Href1).
  destruct (dataReceived_refines new data Inv_new) as (r2 & Hr2 & Href2).
  exists r1, r2. repeat split; [done|done|].
  assert (Habs : abs self' = abs new) by (unfold abs; by rewrite Hm, HL).
  rewrite Habs in Href1. by eapply refines_same.
Qed.

Lemma netstring_resumes_after_missing_comma_witness :
  exists r1 r2,
    dataReceived
      {| mode := LENGTH; length := 0; __buffer := b "a"; __data := b "b" |}
      (b "2:hi,") = Some r1
    /\ dataReceived new (b "2:hi,") = Some r2
    /\ same_outcome r1 r2.
Proof.
  refine (proj2 (proj2 (netstring_resumes_after_missing_comma
            new _ (b "1:ab") (b "b") (b "2:hi,") [b "a"] _ _ eq_refl))).
  - reflexivity.
  - discriminate.
Defined.



End NetstringMore.

(** ** LineReceiver *)

Section LineMore.
Import Line LineFacts.

Lemma occurs_nil (sep : bytes) : occurs sep [] -> sep = [].
Proof.
  intros (h & t & H). symmetry in H.
  apply app_eq_nil in H as [_ H]. by apply app_eq_nil in H as [H _].
Qed.

Lemma occurs_cons_inv (sep s : bytes) (c : byte) :
  occurs sep (c :: s) -> (exists t, c :: s = sep ++ t) \/ occurs sep s.
Proof.
  intros (h & t & H). destruct h as [|d h].
  - left. by exists t.
  - right. inversion H; subst. by exists h, t.
Qed.

Lemma find_sep_none (sep s : bytes) : find_sep sep s = None -> ~ occurs sep s.
Proof.
  induction s as [|c s IH]; intros Hf Ho.
  - apply occurs_nil in Ho as ->. done.
  - cbn [find_sep] in Hf.
    destruct (starts_with sep (c :: s)) eqn:E; [done|].
    destruct (find_sep sep s) as [[h t]|] eqn:Hs; [done|].
    apply occurs_cons_inv in Ho as [Hp|Ho]; [|by apply IH].
    apply starts_with_spec in Hp. congruence.
Qed.

Lemma find_sep_head (sep s h t : bytes) :
  sep <> [] -> find_sep sep s = Some (h, t) -> ~ occurs sep h.
Proof.
  intros Hne. revert h t. induction s as [|c s IH]; intros h t Hf Ho.
  - cbn [find_sep] in Hf. destruct (starts_with sep []); [|done].
    inversion Hf; subst. by apply occurs_nil in Ho.
  - cbn [find_sep] in Hf.
    destruct (starts_with sep (c :: s)) eqn:E.
    + inversion Hf; subst. by apply occurs_nil in Ho.
    + destruct (find_sep sep s) as [[h' t']|] eqn:Hs; [|done].
      inversion Hf; subst.
      apply occurs_cons_inv in Ho as [[y Hp]|Ho]; [|by eapply IH].
      apply find_sep_spec in Hs.
      assert (starts_with sep (c :: s) = true); [|congruence].
      apply starts_with_spec. exists (y ++ sep ++ t).
      rewrite Hs, app_comm_cons, Hp. by rewrite <- app_assoc.
Qed.

Lemma split1_spec (s sep h t : bytes) :
  split1 s sep = Some (h, t) ->
  sep <> [] /\ s = h ++ sep ++ t /\ ~ occurs sep h.
Proof.
  unfold split1. destruct sep as [|c sep]; [done|]. intros Hf.
  repeat split; [done|by apply find_sep_spec|by eapply find_sep_head].
Qed.

Lemma split1_none (s sep : bytes) :
  split1 s sep = None -> sep <> [] -> ~ occurs sep s.
Proof.
  unfold split1. destruct sep as [|c sep]; [done|]. intros Hf _.
  by apply find_sep_none.
Qed.

Section Recorded.
Variable to_raw : bytes -> bool.

#[local] Hint Extern 0 (Consumer (list Call)) =>
  exact (the_recorder to_raw) : typeclass_instances.

Lemma drain_accounts (self : LineReceiver) :
  let r := @drain _ (the_recorder to_raw) self [] in
  delimiter r.1 = delimiter self
  /\ joined (delimiter self) (lines r.2) ++ raw_bytes r.2 ++ buffer r.1
     = buffer self
  /\ Forall (fun l => ~ occurs (delimiter self) l) (lines r.2)
  /\ (line_mode r.1 = true -> delimiter self <> [] ->
      ~ occurs (delimiter self) (buffer r.1)).
Proof.
  remember (Datatypes.length (buffer self)) as n eqn:Hn.
  revert self Hn. induction (lt_wf n) as [n _ IH]. intros self ->.
  cbv zeta in *. rewrite (drain_unfold self []).
  destruct (line_mode self) eqn:Hm.
  - destruct (split1 (buffer self) (delimiter self)) as [[line rest]|] eqn:Hs.
    + cbn [lineReceived the_recorder recorder app].
      set (self' := {| line_mode := negb (to_raw line); buffer := rest;
                       delimiter := delimiter self |}).
      rewrite (drain_log to_raw self' [line_received line]).
      destruct (IH _ (split1_shorter _ _ _ _ Hs) self' eq_refl)
        as (Hd & Hb & Hl & Hr).
      apply split1_spec in Hs as (Hne & Hbuf & Hhead).
      cbn [fst snd delimiter buffer self'] in *.
      rewrite lines_app, raw_bytes_app. cbn [lines raw_bytes flat_map app].
      repeat split.
      * done.
      * unfold joined in *. cbn [map concat]. rewrite Hbuf.
        rewrite <- !app_assoc. by do 2 f_equal.
      * by constructor.
      * done.
    + cbn [fst snd lines raw_bytes flat_map joined map concat app].
      split; [done|split; [done|split; [constructor|]]].
      intros _ Hne. by apply split1_none.
  - cbn [fst snd line_mode delimiter buffer].
    split; [done|split; [|split; [|done]]].
    + destruct (buffer self); cbn; by rewrite ?app_nil_r.
    + destruct (buffer self); cbn; constructor.
Qed.

End Recorded.

(** X7: [dataReceived] loses no byte and makes none up. Whatever the
    mode and the callbacks' switching to raw mode, the lines delivered
    by one call, each followed by the delimiter, then the raw data
    passed on, then what stays buffered, are the bytes that were
    buffered followed by the chunk; and the delimiter is left as it
    is. *)
Theorem line_bytes_accounted
  (to_raw : bytes -> bool) (self : LineReceiver) (data : bytes) :
  joined (delimiter self)
    (lines (@dataReceived _ (recorder to_raw) self data []).2)
  ++ raw_bytes (@dataReceived _ (recorder to_raw) self data []).2
  ++ buffer (@dataReceived _ (recorder to_raw) self data []).1
  = buffer self ++ data
  /\ delimiter (@dataReceived _ (recorder to_raw) self data []).1
     = delimiter self.
Proof.
  unfold dataReceived.
  destruct (drain_accounts to_raw
              {| line_mode := line_mode self; buffer := buffer self ++ data;
                 delimiter := delimiter self |}) as (Hd & Hb & _ & _).
  done.
Qed.

(** X8: no line delivered contains the delimiter, and in line mode what
    stays buffered (with a delimiter that is not empty) does not contain
    it either: a line is cut at the first delimiter, and the loop goes on
    until there is none. *)
Theorem line_delimiter_never_delivered
  (to_raw : bytes -> bool) (self : LineReceiver) (data : bytes) :
  Forall (fun l => ~ occurs (delimiter self) l)
    (lines (@dataReceived _ (recorder to_raw) self data []).2)
  /\ (line_mode (@dataReceived _ (recorder to_raw) self data []).1 = true ->
      delimiter self <> [] ->
      ~ occurs (delimiter self)
          (buffer (@dataReceived _ (recorder to_raw) self data []).1)).
Proof.
  unfold dataReceived.
  destruct (drain_accounts to_raw
              {| line_mode := line_mode self; buffer := buffer self ++ data;
                 delimiter := delimiter self |}) as (_ & _ & Hl & Hr).
  done.
Qed.

Lemma line_delimiter_never_delivered_witness :
  ~ occurs [x0d; x0a]
      (buffer (@dataReceived _ (recorder (fun _ => false)) new
                 (b "ab" ++ [x0d; x0a] ++ b "c" ++ [x0d]) []).1).
Proof.
  refine (proj2 (line_delimiter_never_delivered (fun _ => false) new
                   (b "ab" ++ [x0d; x0a] ++ b "c" ++ [x0d])) _ _).
  - reflexivity.
  - discriminate.
Defined.

Lemma drain_sent (self : LineReceiver) (ls : list bytes) (log : list Call) :
  delimiter self <> [] -> unbordered (delimiter self) ->
  Forall (fun l => ~ occurs (delimiter self) l) ls ->
  @drain _ (recorder (fun _ => false))
    {| line_mode := true; buffer := joined (delimiter self) ls;
       delimiter := delimiter self |} log
  = ({| line_mode := true; buffer := []; delimiter := delimiter self |},
     log ++ map line_received ls).
Proof.
  intros Hne Hub Hls. revert log.
  induction Hls as [|l ls Hl Hls IH]; intros log.
  - rewrite drain_unfold. cbn [line_mode buffer delimiter joined map concat].
    unfold split1. destruct (delimiter self) as [|c sep] eqn:Hd; [done|].
    cbn. by rewrite app_nil_r.
  - rewrite drain_unfold. cbn [line_mode buffer delimiter joined map concat].
    assert (Hs : split1 ((l ++ delimiter self) ++ joined (delimiter self) ls)
                   (delimiter self)
                 = Some (l, joined (delimiter self) ls)).
    { apply (split1_app _ _ _ l []). unfold split1.
      destruct (delimiter self) as [|c sep] eqn:Hd; [done|].
      by apply find_sep_sent. }
    unfold joined in *. rewrite Hs.
    cbn [lineReceived recorder negb]. rewrite IH.
    by rewrite <- app_assoc.
Qed.

(** X9: lines sent are the lines received, for any delimiter that is
    not empty and cannot overlap itself. What [sendLine] writes for the
    lines [ls], none of which contains the delimiter, fed in one chunk
    to a receiver of that delimiter in line mode with nothing buffered,
    is delivered as exactly these lines, in order, and nothing stays
    buffered. *)
Theorem line_lines_in_one_chunk (self : LineReceiver) (ls : list bytes) :
  line_mode self = true -> buffer self = [] ->
  delimiter self <> [] -> unbordered (delimiter self) ->
  Forall (fun l => ~ occurs (delimiter self) l) ls ->
  @dataReceived _ (recorder (fun _ => false)) self
    (concat (map (sendLine self) ls)) []
  = (self, map line_received ls).
Proof.
  intros Hm Hb Hne Hub Hls. unfold dataReceived. rewrite Hm, Hb. cbn [app].
  change (concat (map (sendLine self) ls)) with (joined (delimiter self) ls).
  rewrite drain_sent by done. destruct self. cbn in *. by subst.
Qed.

Lemma line_lines_in_one_chunk_witness :
  @dataReceived _ (recorder (fun _ => false)) new
    (concat (map (sendLine new) [[]; []])) []
  = (new, [line_received []; line_received []]).
Proof.
  refine (line_lines_in_one_chunk new [[]; []] eq_refl eq_refl _
            unbordered_crlf _).
  - discriminate.
  - assert (Hempty : ~ occurs (delimiter new) []).
    { intros (h & t & H). destruct h; discriminate. }
    repeat constructor; exact Hempty.
Defined.

(** X10: [setRawMode] itself delivers nothing and keeps what is
    buffered; the unfinished line that was buffered then reaches
    [rawDataReceived] in front of the next chunk, in one call, and the
    buffer is empty afterwards, so that [setLineMode(extra)] then parses
    [extra] and nothing else. *)
Theorem line_raw_mode_takes_buffer {A} `{Consumer A}
  (self : LineReceiver) (data extra : bytes) (app : A) :
  buffer self ++ data <> [] ->
  dataReceived (setRawMode self) data app
  = ({| line_mode := false; buffer := []; delimiter := delimiter self |},
     rawDataReceived app (buffer self ++ data))
  /\ setLineMode (dataReceived (setRawMode self) data app).1 extra
       (dataReceived (setRawMode self) data app).2
     = dataReceived
         {| line_mode := true; buffer := []; delimiter := delimiter self |}
         extra (rawDataReceived app (buffer self ++ data)).
Proof.
  intros Hne.
  assert (Hraw : dataReceived (setRawMode self) data app
                 = ({| line_mode := false; buffer := [];
                       delimiter := delimiter self |},
                    rawDataReceived app (buffer self ++ data))).
  { unfold dataReceived, setRawMode. rewrite drain_unfold.
    cbn [line_mode buffer delimiter].
    by destruct (buffer self ++ data). }
  split; [done|]. by rewrite Hraw.
Qed.

Lemma line_raw_mode_takes_buffer_witness :
  @dataReceived _ (recorder (fun _ => false))
    (setRawMode {| line_mode := true; buffer := b "par";
                   delimiter := [x0d; x0a] |}) (b "tial") []
  = ({| line_mode := false; buffer := []; delimiter := [x0d; x0a] |},
     [raw_data_received (b "partial")]).
Proof.
  refine (proj1 (@line_raw_mode_takes_buffer _ (recorder (fun _ => false))
    {| line_mode := true; buffer := b "par"; delimiter := [x0d; x0a] |}
    (b "tial") [] [] _)).
  discriminate.
Defined.

End LineMore.

(** ** Int32StringReceiver *)

Section Int32More.
Import Int32 Int32Facts.

#[local] Arguments Z.pow : simpl never.
#[local] Arguments Z.mul : simpl never.
#[local] Arguments Z.add : simpl never.
#[local] Arguments Z.sub : simpl never.
#[local] Arguments Z.div : simpl never.
#[local] Arguments Z.modulo : simpl never.

Lemma iteration_long (recvd packet recvd' : bytes) :
  iteration recvd = Deliver packet recvd' -> 4 <= len recvd.
Proof.
  unfold iteration. destruct (len recvd >? 3) eqn:E; [lia|done].
Qed.

(** Whatever the loop does, it ends by falling out of the [while], and
    what it leaves is a suffix of what it was entered with. *)
Lemma runs_suffix (recvd rest : bytes) ps c :
  runs recvd rest ps c ->
  c = Returns /\ iteration rest = Exit /\ exists n, rest = drop n recvd.
Proof.
  induction 1 as [r He|r He|r p r' rest ps c He Hr (Hc & Hi & n & Hn)].
  - repeat split; [done|]. by exists 0%nat.
  - by apply iteration_no_error in He.
  - repeat split; [done..|].
    destruct (iteration_suffix _ _ _ He) as [m ->].
    exists (m + n)%nat. by rewrite <- drop_drop.
Qed.

(** X11: [dataReceived] never fails in [struct.unpack]: the header it
    unpacks is always four bytes long. Whenever the call returns, it
    returns normally, the bytes it keeps in [recvd] are a suffix of the
    bytes it had (the old [recvd] followed by the chunk), and they do
    not start a frame the loop would deliver. *)
Theorem int32_returns_with_suffix
  (self self' : Int32StringReceiver) (recd : bytes) ps (c : Completion) :
  dataReceived self recd = Some (self', ps, c) ->
  c = Returns
  /\ iteration (recvd self') = Exit
  /\ exists n, recvd self' = drop n (recvd self ++ recd).
Proof. intros H. apply dataReceived_inv in H. by apply runs_suffix in H. Qed.

Lemma int32_returns_with_suffix_witness :
  Returns = Returns
  /\ iteration (b "x") = Exit
  /\ exists n, b "x" = drop n ([x00; x00] ++ [x00; x01] ++ b "ax").
Proof.
  exact (int32_returns_with_suffix
           {| recvd := [x00; x00] |} {| recvd := b "x" |}
           ([x00; x01] ++ b "ax") [b "a"] Returns eq_refl).
Defined.

(** The iteration on a buffer whose header declares [-4], or a length
    so negative that [length + 4] counted from the end of the buffer
    falls before its start. *)
Lemma iteration_stuck (recvd : bytes) (length : Z) :
  4 <= len recvd ->
  unpack_i (slice_to recvd 4) = Some length ->
  length + 4 + len recvd <= 0 \/ length = - 4 ->
  iteration recvd = Deliver [] recvd.
Proof.
  intros Hlen Hh Hneg. unfold iteration.
  destruct (len recvd >? 3) eqn:E; [|lia]. rewrite Hh.
  destruct (len recvd <? length + 4) eqn:E'; [lia|].
  unfold slice, slice_from, bound. f_equal.
  - destruct (4 <? 0) eqn:E4; [lia|].
    destruct (length + 4 <? 0) eqn:E5.
    + replace (Z.to_nat (Z.max (length + 4 + len recvd) 0 - Z.min 4 (len recvd)))
        with 0%nat by lia. done.
    + replace (Z.to_nat (Z.min (length + 4) (len recvd) - Z.min 4 (len recvd)))
        with 0%nat by lia. done.
  - destruct (length + 4 <? 0) eqn:E5.
    + replace (Z.to_nat (Z.max (length + 4 + len recvd) 0)) with 0%nat by lia.
      done.
    + replace (Z.to_nat (Z.min (length + 4) (len recvd))) with 0%nat by lia.
      done.
Qed.

(** X12: a header that declares [-4] (FF FF FF FC), or a length so
    negative that [length + 4] counted from the end of the buffer falls
    before its start, makes [dataReceived] loop for ever: each iteration
    calls [stringReceived] with the empty string and leaves [recvd] as
    it is, so the [while] condition never changes. *)
Theorem int32_negative_header_never_returns
  (self : Int32StringReceiver) (recd : bytes) (length : Z) :
  4 <= len (recvd self ++ recd) ->
  unpack_i (slice_to (recvd self ++ recd) 4) = Some length ->
  length + 4 + len (recvd self ++ recd) <= 0 \/ length = - 4 ->
  iteration (recvd self ++ recd) = Deliver [] (recvd self ++ recd)
  /\ (forall fuel, loop fuel (recvd self ++ recd) = None)
  /\ dataReceived self recd = None.
Proof.
  intros Hlen Hh Hneg.
  pose proof (iteration_stuck _ _ Hlen Hh Hneg) as Hit.
  split; [done|]. split.
  - intros fuel. by eapply loop_stuck.
  - unfold dataReceived. by erewrite loop_stuck.
Qed.

Lemma int32_negative_header_never_returns_witness :
  iteration ([xff; xff] ++ [xff; xfc] ++ b "abc")
  = Deliver [] ([xff; xff] ++ [xff; xfc] ++ b "abc")
  /\ (forall fuel, loop fuel ([xff; xff] ++ [xff; xfc] ++ b "abc") = None)
  /\ dataReceived {| recvd := [xff; xff] |} ([xff; xfc] ++ b "abc") = None.
Proof.
  apply (int32_negative_header_never_returns
           {| recvd := [xff; xff] |} ([xff; xfc] ++ b "abc") (- 4));
    [by vm_compute | reflexivity | by right].
Defined.

(** *** Streams of frames *)

Lemma sendString_spec (P wire : bytes) :
  sendString P = Some wire ->
  0 <= len P < 2 ^ 31 /\ wire = be32 (len P) ++ P.
Proof.
  unfold sendString. destruct (pack_i (len P)) as [h|] eqn:Hp; [|done].
  intros H; inversion H; subst; clear H.
  apply pack_i_spec in Hp as [Hr ->]. pose proof (len_nonneg P).
  rewrite Z.mod_small by (change (2 ^ 32) with 4294967296;
                          change (2 ^ 31) with 2147483648 in Hr; lia).
  split; [lia|done].
Qed.

Lemma int32_header (N : Z) (x : bytes) :
  0 <= N < 2 ^ 31 -> unpack_i (slice_to (be32 N ++ x) 4) = Some N.
Proof.
  intros HN. rewrite header_slice.
  rewrite (take_app_length' (be32 N)) by done.
  rewrite unpack_i_be32 by (change (2 ^ 32) with 4294967296;
                            change (2 ^ 31) with 2147483648 in HN; lia).
  destruct (2 ^ 31 <=? N) eqn:E; [lia|done].
Qed.

(** The loop over the frames [sendString] wrote, followed by bytes that
    do not start a complete frame. *)
Lemma runs_frames (Ps wires : list bytes) (rest : bytes) :
  Forall2 (fun P wire => sendString P = Some wire) Ps wires ->
  iteration rest = Exit ->
  runs (concat wires ++ rest) rest Ps Returns
  /\ nonneg_headers (concat wires ++ rest).
Proof.
  intros HF Hrest.
  induction HF as [|P wire Ps wires Hs HF [IHr IHn]]; cbn [concat app].
  - split; by constructor.
  - apply sendString_spec in Hs as [HP ->].
    assert (Hit : iteration ((be32 (len P) ++ P) ++ concat wires ++ rest)
                  = Deliver P (concat wires ++ rest)).
    { rewrite <- app_assoc. by apply int32_frame. }
    rewrite <- (app_assoc _ (concat wires) rest). split.
    + eapply runs_deliver; [exact Hit|exact IHr].
    + eapply nonneg_deliver; [|apply HP|exact Hit|exact IHn].
      rewrite <- app_assoc. by apply int32_header.
Qed.

(** X13: a stream of frames written by [sendString], cut into chunks at
    any places (inside a header, inside a payload, several frames in one
    chunk), makes a new receiver deliver exactly the payloads sent, in
    order, and leaves nothing in [recvd]. *)
Theorem int32_stream_any_chunking (Ps wires chunks : list bytes) :
  Forall2 (fun P wire => sendString P = Some wire) Ps wires ->
  concat chunks = concat wires ->
  receive_all new chunks = Some (new, Ps, Returns)
  /\ dataReceived new (concat wires) = Some (new, Ps, Returns).
Proof.
  intros HF Hcat.
  destruct (runs_frames Ps wires [] HF) as [Hr Hn]; [done|].
  rewrite app_nil_r in Hr, Hn.
  assert (Hall : dataReceived new (concat wires) = Some (new, Ps, Returns)).
  { by apply (dataReceived_runs new). }
  split; [|done].
  destruct (int32_chunks chunks new) as [-> _]; [done| |].
  - cbn [recvd new app]. by rewrite Hcat.
  - by rewrite Hcat.
Qed.

Lemma int32_stream_any_chunking_witness :
  receive_all new [[x00; x00]; [x00; x02] ++ b "a";
                   b "b" ++ [x00; x00; x00; x00; x00]; [x00; x00; x01] ++ b "c"]
  = Some (new, [b "ab"; []; b "c"], Returns)
  /\ dataReceived new (concat [be32 2 ++ b "ab"; be32 0; be32 1 ++ b "c"])
     = Some (new, [b "ab"; []; b "c"], Returns).
Proof.
  apply (int32_stream_any_chunking
           [b "ab"; []; b "c"] [be32 2 ++ b "ab"; be32 0; be32 1 ++ b "c"]).
  - repeat constructor.
  - reflexivity.
Defined.

Lemma be32_of_be32 (s : bytes) (u : Z) : of_be32 s = Some u -> be32 u = s.
Proof.
  destruct s as [|b3 [|b2 [|b1 [|b0 [|? ?]]]]]; try done.
  intros H; inversion H; subst; clear H.
  pose proof (ord_bounded b3). pose proof (ord_bounded b2).
  pose proof (ord_bounded b1). pose proof (ord_bounded b0).
  unfold be32.
  change (2 ^ 24) with 16777216. change (2 ^ 16) with 65536.
  change (2 ^ 8) with 256.
  replace [b3; b2; b1; b0]
    with [chr (ord b3); chr (ord b2); chr (ord b1); chr (ord b0)]
    by (by rewrite !chr_ord).
  f_equal; [|f_equal; [|f_equal; [|f_equal]]]; f_equal;
    Z.to_euclidean_division_equations; lia.
Qed.

(** A header read as a non-negative length is what [struct.pack] writes
    for that length. *)
Lemma unpack_i_nonneg (s : bytes) (n : Z) :
  unpack_i s = Some n -> 0 <= n -> n < 2 ^ 31 /\ be32 n = s.
Proof.
  unfold unpack_i. destruct (of_be32 s) as [u|] eqn:Hu; [|done].
  pose proof (of_be32_bounded _ _ Hu) as Hb.
  change (2 ^ 32) with 4294967296 in *. change (2 ^ 31) with 2147483648 in *.
  destruct (2147483648 <=? u) eqn:E; intros H Hn; inversion H; subst.
  - lia.
  - split; [lia|]. by apply be32_of_be32.
Qed.

(** The frames the loop delivers, written again by [sendString] and
    followed by what the loop leaves, are the bytes the loop was entered
    with. *)
Lemma runs_conserves (recvd rest : bytes) ps c :
  runs recvd rest ps c ->
  nonneg_headers recvd ->
  exists wires,
    Forall2 (fun P wire => sendString P = Some wire) ps wires
    /\ recvd = concat wires ++ rest.
Proof.
  induction 1 as [r He|r He|r p r' rest ps c He Hr IH]; intros Hnn.
  - by exists [].
  - by exists [].
  - inversion Hnn as [? He'|? n p' r'' Hh Hn He' Hnn']; subst;
      rewrite He in He'; [done|]. inversion He'; subst p' r''; clear He'.
    destruct (IH Hnn') as (wires & HF & Hcat).
    pose proof (iteration_long _ _ _ He) as Hlen.
    rewrite (iteration_nonneg _ _ Hlen Hh Hn) in He.
    destruct (len r <? n + 4) eqn:E; [done|]. inversion He as [[Hp Hr']].
    rewrite header_slice in Hh.
    apply unpack_i_nonneg in Hh as [Hlt Hbe]; [|done].
    assert (Hlp : len p = n).
    { rewrite <- Hp. unfold len in *. rewrite length_take, length_drop. lia. }
    exists ((be32 n ++ p) :: wires). split.
    + constructor; [|done]. unfold sendString.
      by rewrite Hp, Hlp, pack_i_nonneg by lia.
    + cbn [concat]. rewrite <- !app_assoc, <- Hcat, Hbe, <- Hp, <- Hr'.
      replace (Z.to_nat (n + 4)) with (4 + Z.to_nat n)%nat by lia.
      rewrite <- drop_drop. by rewrite !take_drop.
Qed.

(** X14: while no length read is negative, the call returns, and no
    byte is lost or invented: [dataReceived] ends in a return, and the
    frames it delivers, each written again by [sendString], followed by
    the bytes kept in [recvd], are exactly the bytes the call had (the
    old [recvd] followed by the chunk). *)
Theorem int32_delivered_frames_reencode
  (self : Int32StringReceiver) (recd : bytes) :
  nonneg_headers (recvd self ++ recd) ->
  exists self' ps wires,
    dataReceived self recd = Some (self', ps, Returns)
    /\ Forall2 (fun P wire => sendString P = Some wire) ps wires
    /\ recvd self ++ recd = concat wires ++ recvd self'.
Proof.
  intros Hnn. destruct (nonneg_runs _ Hnn) as (rest & ps & Hr).
  destruct (runs_conserves _ _ _ _ Hr Hnn) as (wires & HF & Hcat).
  exists {| recvd := rest |}, ps, wires.
  split; [by apply dataReceived_runs|done].
Qed.

Lemma int32_delivered_frames_reencode_witness :
  exists self' ps wires,
    dataReceived {| recvd := [x00; x00] |}
      ([x00; x01] ++ b "a" ++ be32 0 ++ [x00; x00; x00; x07; x21])
    = Some (self', ps, Returns)
    /\ Forall2 (fun P wire => sendString P = Some wire) ps wires
    /\ [x00; x00] ++ ([x00; x01] ++ b "a" ++ be32 0 ++ [x00; x00; x00; x07; x21])
       = concat wires ++ recvd self'.
Proof.
  apply (int32_delivered_frames_reencode
           {| recvd := [x00; x00] |}
           ([x00; x01] ++ b "a" ++ be32 0 ++ [x00; x00; x00; x07; x21])).
  eapply nonneg_deliver; [reflexivity|done|reflexivity|].
  eapply nonneg_deliver; [reflexivity|done|reflexivity|].
  by apply nonneg_exit.
Defined.

End Int32More.

(** ** StatefulStringProtocol *)

Section StatefulMore.
Import Stateful.

Lemma deliver_cons (self : StatefulStringProtocol) (f : bytes) frames :
  deliver self (f :: frames) = deliver (stringReceived self f) frames.
Proof. reflexivity. Qed.

Lemma stringReceived_hit
  (self : StatefulStringProtocol) (h : bytes -> string) (string : bytes) :
  attributes self !! ("proto_" ++ state self)%string = Some h ->
  stringReceived self string
  = {| state := h string; attributes := attributes self;
       calls := calls self ++ [(("proto_" ++ state self)%string, string)];
       printed := printed self;
       connection_lost :=
         if String.eqb (h string) "done" then true
         else connection_lost self |}.
Proof. intros H. unfold stringReceived. by rewrite H. Qed.

(** X16: a handler that returns ['done'] closes the connection, and
    [stringReceived] does not look at that afterwards: when the object
    has no [proto_done], each frame that still arrives (the receiver's
    loop goes on through the frames of the same chunk) is reported as
    ['callback done not found'] and no handler is called again. *)
Theorem stateful_frames_after_done
  (self : StatefulStringProtocol) (h : bytes -> string)
  (string : bytes) (frames : list bytes) :
  attributes self !! ("proto_" ++ state self)%string = Some h ->
  h string = "done" ->
  attributes self !! "proto_done" = None ->
  state (deliver self (string :: frames)) = "done"
  /\ connection_lost (deliver self (string :: frames)) = true
  /\ calls (deliver self (string :: frames))
     = calls self ++ [(("proto_" ++ state self)%string, string)]
  /\ printed (deliver self (string :: frames))
     = printed self
       ++ replicate (Datatypes.length frames) "callback done not found".
Proof.
  intros Hh Hd Hnone. rewrite deliver_cons.
  rewrite (stringReceived_hit _ _ _ Hh), Hd. cbn [String.eqb Ascii.eqb].
  match goal with
  | |- context [deliver ?s frames] =>
      destruct (deliver_miss frames s) as (-> & _ & -> & -> & ->)
  end; [exact Hnone|done].
Qed.

Lemma stateful_frames_after_done_witness :
  printed (deliver (new {[ "proto_init" := fun _ => "done" ]})
             [b "bye"; b "one"; b "two"])
  = ["callback done not found"; "callback done not found"].
Proof.
  exact (proj2 (proj2 (proj2 (stateful_frames_after_done
    (new {[ "proto_init" := fun _ => "done" ]}) (fun _ => "done")
    (b "bye") [b "one"; b "two"] eq_refl eq_refl eq_refl)))).
Defined.

End StatefulMore.

(** ** StatefulStringProtocol, with handlers that return any object *)

Section StatefulAnyMore.
Import StatefulAny.

(** On an object whose handlers return strings the two embeddings of
    [stringReceived] agree, and no call raises. *)
Lemma stringReceived_of_strings
  (self : Stateful.StatefulStringProtocol) (string : bytes) :
  stringReceived (of_strings self) string
  = (of_strings (Stateful.stringReceived self string), Returns).
Proof.
  unfold stringReceived, Stateful.stringReceived, of_strings.
  cbn [state attributes calls printed connection_lost].
  rewrite lookup_fmap.
  by destruct (Stateful.attributes self !! _) as [h|].
Qed.

Lemma deliver_of_strings
  (frames : list bytes) (self : Stateful.StatefulStringProtocol) :
  deliver (of_strings self) frames
  = (of_strings (Stateful.deliver self frames), Returns).
Proof.
  revert self. induction frames as [|f frames IH]; intros self; [done|].
  cbn [deliver]. rewrite stringReceived_of_strings. apply IH.
Qed.

Lemma stringReceived_raises (self : StatefulStringProtocol) (string : bytes) :
  (stringReceived self string).2 = Raises_TypeError ->
  state self = Other /\ (stringReceived self string).1 = self.
Proof.
  unfold stringReceived. destruct (state self) as [st|]; [|done].
  by destruct (attributes self !! _).
Qed.

Lemma stringReceived_returns (self : StatefulStringProtocol) (string : bytes) :
  (stringReceived self string).2 = Returns ->
  attributes (stringReceived self string).1 = attributes self
  /\ (Datatypes.length (calls (stringReceived self string).1)
      + Datatypes.length (printed (stringReceived self string).1)
      = Datatypes.length (calls self) + Datatypes.length (printed self) + 1)%nat
  /\ (state (stringReceived self string).1 = Other ->
      exists name h, attributes self !! name = Some h /\ h string = Other)
  /\ ((forall name h, attributes self !! name = Some h ->
                      h string <> Str "done") ->
      connection_lost (stringReceived self string).1 = connection_lost self).
Proof.
  unfold stringReceived. destruct (state self) as [st|] eqn:Hst; [|done].
  destruct (attributes self !! _) as [h|] eqn:Hh; intros _;
    cbn [fst state attributes calls printed connection_lost].
  - split; [done|]. split; [rewrite length_app; cbn; lia|]. split.
    + intros Ho. eauto.
    + intros Hnd. destruct (h string) as [st'|] eqn:Hr; [|done].
      destruct (String.eqb st' "done") eqn:E; [|done].
      apply String.eqb_eq in E. subst st'. by destruct (Hnd _ _ Hh).
  - split; [done|]. split; [rewrite length_app; cbn; lia|].
    split; done.
Qed.

(** X15: every frame for which [stringReceived] returns is answered
    once, by one handler call or by one printed line: over the frames
    delivered, the calls made and the lines printed grow together by
    the number of frames answered. The frames are all answered unless a
    call raises [TypeError]; that happens only when [state] is not a
    string, that is when the object started so or a handler returned
    something that is not a string; the frame at hand and the frames
    behind it are then not answered, and [state] is left as it is. And
    when no handler of the object ever returns ['done'], the connection
    is not closed. *)
Theorem stateful_every_frame_answered
  (self : StatefulStringProtocol) (frames : list bytes) :
  (exists answered rest,
      frames = answered ++ rest
      /\ (Datatypes.length (calls (deliver self frames).1)
          + Datatypes.length (printed (deliver self frames).1)
          = Datatypes.length (calls self) + Datatypes.length (printed self)
            + Datatypes.length answered)%nat
      /\ match (deliver self frames).2 with
         | Returns => rest = []
         | Raises_TypeError =>
             rest <> []
             /\ state (deliver self frames).1 = Other
             /\ (state self = Other
                 \/ exists name h string,
                      attributes self !! name = Some h /\ h string = Other)
         end)
  /\ ((forall name h string,
          attributes self !! name = Some h -> h string <> Str "done") ->
      connection_lost (deliver self frames).1 = connection_lost self).
Proof.
  revert self. induction frames as [|f frames IH]; intros self.
  - split; [|done]. exists [], []. cbn. split; [done|]. split; [lia|done].
  - cbn [deliver].
    destruct (stringReceived self f) as [self1 c1] eqn:Hstep.
    destruct c1.
    + pose proof (stringReceived_returns self f) as Hret.
      rewrite Hstep in Hret. cbn [fst snd] in Hret.
      destruct (Hret eq_refl) as (Ha & Hn & Ho & Hc).
      destruct (IH self1) as [(answered & rest & -> & IHn & IHm) IHc].
      split.
      * exists (f :: answered), rest. split; [done|].
        split; [cbn [Datatypes.length]; lia|].
        destruct (deliver self1 (answered ++ rest)).2; [done|].
        destruct IHm as (Hne & Hs & Hor). split; [done|]. split; [done|].
        right. destruct Hor as [Hs1|(name & h & string & Hh & Hr)].
        -- destruct (Ho Hs1) as (name & h & Hh & Hr). eauto.
        -- rewrite Ha in Hh. eauto.
      * intros Hnd. rewrite IHc by (by rewrite Ha). apply Hc. eauto.
    + pose proof (stringReceived_raises self f) as Hr.
      rewrite Hstep in Hr. cbn [fst snd] in Hr.
      destruct (Hr eq_refl) as [Hs ->].
      split; [|done]. exists [], (f :: frames). cbn [fst snd app].
      split; [done|]. split; [cbn; lia|]. split; [done|]. split; [done|].
      by left.
Qed.

(** The run the property is about: [proto_init] returns [None], so the
    first frame is answered and the second raises. *)
Example stateful_handler_returns_none :
  deliver (new {[ "proto_init" := fun _ => Other ]}) [b "one"; b "two"]
  = ({| state := Other;
        attributes := {[ "proto_init" := fun _ => Other ]};
        calls := [("proto_init", b "one")]; printed := [];
        connection_lost := false |}, Raises_TypeError).
Proof. reflexivity. Qed.

End StatefulAnyMore.

(** ** ResourceSubscription *)

Section SubscriptionMore.
Import Distrib.

(** With a publisher, [render] passes the request on and leaves the
    object as it is. *)
Lemma render_each_connected
  (self : ResourceSubscription) (p : Publisher) (requests : list Request) :
  publisher self = Some p ->
  render_each self requests = (self, map (publisher_request p) requests).
Proof.
  intros Hp. induction requests as [|r requests IH]; [done|].
  cbn [render_each map]. unfold render at 1. rewrite Hp, IH. done.
Qed.

Lemma connected_spec (self : ResourceSubscription) (p : Publisher) :
  connected self p
  = ({| host := host self; port := port self; service := service self;
        username := username self; password := password self;
        waiting := false; pending := pending self;
        publisher := Some p |},
     print "connected to publisher"
     :: map (publisher_request p) (pending self)).
Proof.
  unfold connected. cbn [pending]. by rewrite (render_each_connected _ p).
Qed.

(** Renders without a publisher, when a connection is already waited
    for. *)
Lemma run_renders_waiting
  (requests : list Request) (self : ResourceSubscription) :
  publisher self = None -> waiting self = true ->
  run self (map Render requests)
  = ({| host := host self; port := port self; service := service self;
        username := username self; password := password self;
        waiting := true; pending := pending self ++ requests;
        publisher := None |}, []).
Proof.
  revert self. induction requests as [|r requests IH]; intros self Hp Hw.
  - cbn. rewrite app_nil_r. destruct self; cbn in *. by subst.
  - cbn [map run call]. unfold render. rewrite Hp, Hw.
    rewrite IH by done. cbn. by rewrite <- app_assoc.
Qed.

(** X17: without a publisher every [render] queues its request, in
    order of arrival, and only a [render] that finds no connection
    waited for starts one: however many requests arrive before the
    broker answers, at most one connection is opened, and nothing is
    written to any request. *)
Theorem subscription_queues_while_unconnected
  (self : ResourceSubscription)
  (request : Request) (requests : list Request) :
  publisher self = None ->
  run self (map Render (request :: requests))
  = ({| host := host self; port := port self; service := service self;
        username := username self; password := password self;
        waiting := true; pending := pending self ++ request :: requests;
        publisher := None |},
     if waiting self then []
     else [connect (host self) (port self) (service self)
             (username self) (password self)]).
Proof.
  intros Hp. cbn [map run call]. unfold render. rewrite Hp.
  destruct (waiting self); rewrite run_renders_waiting by done;
    cbn; by rewrite <- app_assoc.
Qed.

Lemma subscription_queues_while_unconnected_witness :
  run (__init__ (b "unix") (b "/home/u/.twistd-web-pb")
         (b "web") (b "web") (b "web"))
    [Render 1%nat; Render 2%nat; Render 3%nat]
  = ({| host := b "unix"; port := b "/home/u/.twistd-web-pb";
        service := b "web"; username := b "web"; password := b "web";
        waiting := true; pending := [1; 2; 3]%nat; publisher := None |},
     [connect (b "unix") (b "/home/u/.twistd-web-pb")
        (b "web") (b "web") (b "web")]).
Proof.
  exact (subscription_queues_while_unconnected
           (__init__ (b "unix") (b "/home/u/.twistd-web-pb")
              (b "web") (b "web") (b "web"))
           1%nat [2; 3]%nat eq_refl).
Defined.

(** No method takes a request out of [pending]. *)
Lemma call_pending (self : ResourceSubscription) (c : Call) :
  exists more, pending (call self c).1 = pending self ++ more.
Proof.
  destruct c as [r|p| |]; cbn [call].
  - unfold render. destruct (publisher self), (waiting self); cbn;
      eauto using app_nil_r.
  - rewrite connected_spec. exists []. cbn. by rewrite app_nil_r.
  - exists []. cbn. by rewrite app_nil_r.
  - exists []. cbn. by rewrite app_nil_r.
Qed.

Lemma run_pending (calls : list Call) (self : ResourceSubscription) :
  exists more, pending (run self calls).1 = pending self ++ more.
Proof.
  revert self. induction calls as [|c calls IH]; intros self.
  - exists []. cbn. by rewrite app_nil_r.
  - cbn [run]. destruct (call_pending self c) as [m1 H1].
    destruct (call self c) as [self1 ev1]. cbn [fst] in H1.
    destruct (IH self1) as [m2 H2].
    destruct (run self1 calls) as [self2 ev2]. cbn [fst] in *.
    exists (m1 ++ m2). by rewrite H2, H1, app_assoc.
Qed.

(** X18: a request once queued is never taken out of [pending]: not
    when it is passed to a publisher, not when it is answered by
    [notConnected], not when the connection is lost. So whatever
    happens in between, the next [connected] passes it to the new
    publisher (again, if an earlier publisher had it), and it is still
    queued after that. *)
Theorem subscription_requests_reissued
  (self : ResourceSubscription) (calls : list Call)
  (p : Publisher) (request : Request) :
  In request (pending self) ->
  In (publisher_request p request) (connected (run self calls).1 p).2
  /\ In request (pending (connected (run self calls).1 p).1).
Proof.
  intros Hin. rewrite connected_spec. cbn [fst snd pending].
  destruct (run_pending calls self) as [more ->].
  split.
  - right. apply in_map. apply in_or_app. by left.
  - apply in_or_app. by left.
Qed.

Lemma subscription_requests_reissued_witness :
  In (publisher_request 8%nat 1%nat)
    (connected
       (run (run (__init__ (b "h") (b "p") (b "web") (b "web") (b "web"))
               [Render 1%nat]).1
          [Connected 7%nat; Booted; Render 2%nat]).1 8%nat).2
  /\ In 1%nat
       (pending
          (connected
             (run (run (__init__ (b "h") (b "p") (b "web") (b "web") (b "web"))
                     [Render 1%nat]).1
                [Connected 7%nat; Booted; Render 2%nat]).1 8%nat).1).
Proof.
  apply (subscription_requests_reissued
           (run (__init__ (b "h") (b "p") (b "web") (b "web") (b "web"))
              [Render 1%nat]).1
           [Connected 7%nat; Booted; Render 2%nat] 8%nat 1%nat).
  simpl. by left.
Defined.

(** X19: [notConnected] answers the queued requests and leaves
    [waiting] set. From then on, as long as neither [connected] nor
    [booted] is called, every [render] only queues its request: no new
    connection is opened and nothing is written to the request. *)
Theorem subscription_no_retry_after_notConnected
  (self : ResourceSubscription) (requests : list Request) :
  publisher self = None -> waiting self = true ->
  run self (NotConnected :: map Render requests)
  = ({| host := host self; port := port self; service := service self;
        username := username self; password := password self;
        waiting := true; pending := pending self ++ requests;
        publisher := None |},
     print "could not connect to distributed web service."
     :: flat_map
          (fun request =>
             [request_write request
                (b "Unable to connect to distributed server.");
              request_finish request])
          (pending self)).
Proof.
  intros Hp Hw. cbn [run call]. unfold notConnected.
  rewrite run_renders_waiting by done. by rewrite app_nil_r.
Qed.

Lemma subscription_no_retry_after_notConnected_witness :
  run (run (__init__ (b "h") (b "p") (b "web") (b "web") (b "web"))
         [Render 1%nat]).1
    (NotConnected :: map Render [2; 3]%nat)
  = ({| host := b "h"; port := b "p";
        service := b "web"; username := b "web"; password := b "web";
        waiting := true; pending := [1; 2; 3]%nat; publisher := None |},
     [print "could not connect to distributed web service.";
      request_write 1%nat (b "Unable to connect to distributed server.");
      request_finish 1%nat]).
Proof.
  exact (subscription_no_retry_after_notConnected
           (run (__init__ (b "h") (b "p") (b "web") (b "web") (b "web"))
              [Render 1%nat]).1
           [2; 3]%nat eq_refl eq_refl).
Defined.

End SubscriptionMore.

(** ** UserDirectory *)

Section UserDirectoryMore.
Import Distrib.

Variable getpwnam : bytes -> option bytes.
Variable repr : bytes -> bytes.

#[local] Arguments Z.add : simpl never.
#[local] Arguments Z.sub : simpl never.
#[local] Arguments Z.opp : simpl never.

(** [s[-len(td):]] and [s[:-len(td)]] on a string that ends with
    [td]. *)
Lemma slice_suffix (u td : bytes) :
  td <> [] ->
  slice_from (u ++ td) (- len td) = td
  /\ slice_to (u ++ td) (- len td) = u.
Proof.
  intros Hne.
  assert (Hpos : 0 < len td).
  { destruct td; [done|]. rewrite len_cons. pose proof (len_nonneg td). lia. }
  pose proof (len_nonneg u) as Hu.
  unfold slice_to, slice, slice_from, bound. rewrite len_app.
  destruct (- len td <? 0) eqn:E; [|lia].
  destruct (0 <? 0) eqn:E0; [lia|].
  replace (Z.max (- len td + (len u + len td)) 0) with (len u) by lia.
  replace (Z.min 0 (len u + len td)) with 0 by lia.
  rewrite Z.sub_0_r. unfold len. rewrite Nat2Z.id. cbn [Z.to_nat drop].
  split; [apply drop_app_length|apply take_app_length].
Qed.

(** [s[i:]] is an end of [s]. *)
Lemma slice_from_suffix (s : bytes) (i : Z) :
  exists u, s = u ++ slice_from s i.
Proof.
  unfold slice_from. eexists. symmetry. apply take_drop.
Qed.

(** X20: a name that ends in ['.twistd'] is always taken for a user's
    own server: [getChild] looks up the name without these seven
    characters (the empty name for ['.twistd'] itself), and for a user
    that exists it returns a subscription to the socket
    ['.twistd-web-pb'] in the user's home directory, over ['unix'], not
    yet connected and with nothing queued, and binds it as the child
    of that name; for a user that does not exist it returns the 'No
    Such User' page and binds nothing. *)
Theorem userdir_twistd_suffix (self : UserDirectory) (user : bytes) :
  getChild getpwnam repr self (user ++ b ".twistd")
  = match getpwnam user with
    | Some pw_dir =>
        let rs :=
          Subscription
            {| host := b "unix"; port := join pw_dir (b ".twistd-web-pb");
               service := b "web"; username := b "web"; password := b "web";
               waiting := false; pending := []; publisher := None |} in
        (rs, {| children := (user ++ b ".twistd", rs) :: children self |})
    | None =>
        (ErrorPage 404 "No Such User"
           (b "The user " ++ repr user ++ b " was not found on this system."),
         self)
    end.
Proof.
  unfold getChild.
  destruct (slice_suffix user (b ".twistd")) as [Hs Hu]; [done|].
  rewrite bool_decide_eq_false_2 by (by destruct user).
  rewrite Hs, Hu. rewrite bool_decide_eq_true_2 by done.
  by destruct (getpwnam user).
Qed.

(** X21: a name that is not empty and does not end in ['.twistd'] is
    looked up as it is: for a user that exists [getChild] returns the
    files of ['public_html'] in the user's home directory, for one that
    does not the 'No Such User' page; it binds no child either way. *)
Theorem userdir_plain_name (self : UserDirectory) (chnam : bytes) :
  chnam <> [] ->
  (forall user, chnam <> user ++ b ".twistd") ->
  getChild getpwnam repr self chnam
  = (match getpwnam chnam with
     | Some pw_dir => File (join pw_dir (b "public_html"))
     | None =>
         ErrorPage 404 "No Such User"
           (b "The user " ++ repr chnam ++ b " was not found on this system.")
     end, self).
Proof.
  intros Hne Hsuf. unfold getChild.
  rewrite bool_decide_eq_false_2 by done.
  rewrite bool_decide_eq_false_2.
  - by destruct (getpwnam chnam).
  - intros Heq.
    destruct (slice_from_suffix chnam (- len (b ".twistd"))) as [u Hu].
    rewrite Heq in Hu. by apply Hsuf in Hu.
Qed.

End UserDirectoryMore.

Lemma userdir_plain_name_witness :
  Distrib.getChild
    (fun name => if bool_decide (name = b "alice")
                 then Some (b "/home/alice") else None)
    (fun s => b "'" ++ s ++ b "'")
    {| Distrib.children := [] |} (b "alice")
  = (Distrib.File (b "/home/alice/public_html"), {| Distrib.children := [] |}).
Proof.
  refine (userdir_plain_name _ _ _ (b "alice") _ _); [done|].
  intros [|? [|? [|? [|? [|? [|? ?]]]]]]; discriminate.
Defined.
